(** * Maya companion: the session logic of [src/App.tsx]

    A shallow embedding of the voice-session client: the emotion
    classifier, the capture conversion, the playback scheduler, the
    transcript state and the session controls, followed by the properties
    the specification states about them.

    Conventions.
    - A JavaScript string is a [string]: a sequence of code units below
      256.  On that range [toLowerCase] only moves [A-Z] into the ASCII
      letters, and no code unit from 128 up is a word character of a
      regular expression without the [u] flag.
    - Times on the output timeline ([currentTime], [duration], the [when]
      of [start]) are doubles, in seconds.  A finite double is a rational:
      a maximum is exact, a sum or a quotient is rounded to the nearest
      double ([round64]).
    - Wall-clock instants ([Date.now()], [setTimeout]) are integers in
      milliseconds.
    - React state, the three refs and the calls made on the collaborators
      (audio sources, channel, timers) form one record, [World]; a handler
      is a function on it. *)

From Stdlib Require Import ZArith QArith Qminmax Qround Qpower String Ascii List Bool Lia.
Import ListNotations.

(* ================================================================== *)
(** * Part I - the program *)
(* ================================================================== *)

(** ** [src/types.ts] *)

Inductive Role := user | model.

Record Message := mkMessage { role : Role; text : string; timestamp : Z }.

Inductive ConnectionStatus := IDLE | CONNECTING | CONNECTED | ERROR.

Inductive Emotion :=
  joy | empathy | calm | curiosity | frustration | surprise | boredom | default.

Definition Emotion_eqb (a b : Emotion) : bool :=
  match a, b with
  | joy, joy | empathy, empathy | calm, calm | curiosity, curiosity
  | frustration, frustration | surprise, surprise | boredom, boredom
  | default, default => true
  | _, _ => false
  end.

(** ** Strings as the handlers use them *)

Local Open Scope string_scope.

(** A string is falsy exactly when it is empty. *)
Definition truthy (s : string) : bool :=
  match s with EmptyString => false | String _ _ => true end.

Definition lowerChar (c : ascii) : ascii :=
  let n := nat_of_ascii c in
  if (65 <=? n)%nat && (n <=? 90)%nat then ascii_of_nat (n + 32) else c.

Fixpoint toLowerCase (s : string) : string :=
  match s with
  | EmptyString => EmptyString
  | String c s' => String (lowerChar c) (toLowerCase s')
  end.

(** [WhiteSpace] and [LineTerminator] code units below 256: TAB, LF, VT,
    FF, CR, SP and NBSP. *)
Definition isWhiteSpace (c : ascii) : bool :=
  let n := nat_of_ascii c in
  ((9 <=? n)%nat && (n <=? 13)%nat) || (n =? 32)%nat || (n =? 160)%nat.

Fixpoint trimStart (s : string) : string :=
  match s with
  | EmptyString => EmptyString
  | String c s' => if isWhiteSpace c then trimStart s' else s
  end.

(** [trimEnd] keeps a character when it is not white space or when
    something survives to its right. *)
Fixpoint trimEnd (s : string) : string :=
  match s with
  | EmptyString => EmptyString
  | String c s' =>
      match trimEnd s' with
      | EmptyString => if isWhiteSpace c then EmptyString else String c EmptyString
      | t => String c t
      end
  end.

Definition trim (s : string) : string := trimEnd (trimStart s).

(** ** Regular expressions of the shape [/\b(k1|k2|...)\b/] *)

(** [\w] without the [u] flag: [A-Za-z0-9_]. *)
Definition isWordChar (c : ascii) : bool :=
  let n := nat_of_ascii c in
  ((48 <=? n)%nat && (n <=? 57)%nat) || ((65 <=? n)%nat && (n <=? 90)%nat)
  || (n =? 95)%nat || ((97 <=? n)%nat && (n <=? 122)%nat).

Definition isWord (o : option ascii) : bool :=
  match o with Some c => isWordChar c | None => false end.

Definition peek (s : string) : option ascii :=
  match s with String c _ => Some c | EmptyString => None end.

(** [\b] at a position: the character before it and the character after
    it differ in being word characters; the ends of the input count as
    non-word. *)
Definition wordBoundary (prev : option ascii) (rest : string) : bool :=
  xorb (isWord prev) (isWord (peek rest)).

(** Consume the literal [w] at the head of [s]; the result is the last
    character consumed (or [prev] when [w] is empty) and what follows. *)
Fixpoint matchLiteral (w : string) (prev : option ascii) (s : string)
  : option (option ascii * string) :=
  match w with
  | EmptyString => Some (prev, s)
  | String c w' =>
      match s with
      | EmptyString => None
      | String d s' => if Ascii.eqb c d then matchLiteral w' (Some d) s' else None
      end
  end.

(** One alternative between the two [\b], at the current position. *)
Definition matchAlternative (prev : option ascii) (s : string) (w : string) : bool :=
  match matchLiteral w prev s with
  | Some (p, r) => wordBoundary p r
  | None => false
  end.

(** The whole pattern at the current position: the alternatives are tried
    in order until one is followed by a boundary. *)
Definition matchHere (alts : list string) (prev : option ascii) (s : string) : bool :=
  wordBoundary prev s && existsb (matchAlternative prev s) alts.

(** [RegExp.prototype.test]: the pattern is tried at every position from
    left to right. *)
Fixpoint testFrom (alts : list string) (prev : option ascii) (s : string) : bool :=
  matchHere alts prev s
  || match s with
     | EmptyString => false
     | String c s' => testFrom alts (Some c) s'
     end.

Definition test (alts : list string) (s : string) : bool := testFrom alts None s.

(** ** [detectEmotion] (App.tsx, lines 48-81) *)

Definition surpriseWords : list string :=
  ["wow"; "whoa"; "surprise"; "unbelievable"; "sudden"; "unexpected";
   "really?"; "no way"; "incredible"].
Definition frustrationWords : list string :=
  ["frustrating"; "annoying"; "bother"; "difficult"; "hard"; "tough"; "ugh";
   "sigh"; "annoyed"].
Definition boredomWords : list string :=
  ["bored"; "repetitive"; "same"; "dull"; "slow"; "nothing"; "empty";
   "routine"; "yawn"].
Definition joyWords : list string :=
  ["happy"; "excited"; "great"; "amazing"; "wonderful"; "love"; "yay"; "joy";
   "fantastic"; "brilliant"; "glad"; "delighted"].
Definition empathyWords : list string :=
  ["sorry"; "sad"; "understand"; "there"; "care"; "heart"; "empathy";
   "support"; "feel"; "lonely"; "hurt"; "pain"].
Definition calmWords : list string :=
  ["relax"; "calm"; "breathe"; "peace"; "quiet"; "gentle"; "soft"; "rest";
   "still"; "okay"; "fine"].
Definition curiosityWords : list string :=
  ["why"; "how"; "curious"; "interesting"; "wonder"; "think"; "thought";
   "idea"; "question"; "analyze"; "learn"].

Definition detectEmotion (text : string) : Emotion :=
  let lower := toLowerCase text in
  if test surpriseWords lower then surprise
  else if test frustrationWords lower then frustration
  else if test boredomWords lower then boredom
  else if test joyWords lower then joy
  else if test empathyWords lower then empathy
  else if test calmWords lower then calm
  else if test curiosityWords lower then curiosity
  else default.

(** ** The capture conversion (App.tsx, lines 126-136) *)

Local Open Scope Z_scope.

(** [ToIntegerOrInfinity]: the fraction is dropped, toward zero. *)
Definition truncate (x : Q) : Z := Z.quot (Qnum x) (Z.pos (Qden x)).

(** [ToInt16], the conversion a store into an [Int16Array] performs:
    truncate, reduce modulo 2^16, read the result as a signed 16-bit value. *)
Definition ToInt16 (x : Q) : Z :=
  let m := truncate x mod 65536 in
  if 32768 <=? m then m - 65536 else m.

(** [int16[i] = inputData[i] * 32768].  A sample is a binary fraction, so
    the product by 2^15 is exact. *)
Definition sampleToInt16 (f : Q) : Z := ToInt16 (f * 32768)%Q.

Definition is_int16 (x : Z) : Prop := -32768 <= x <= 32767.
Definition is_byte (b : Z) : Prop := 0 <= b < 256.

(** [new Uint8Array(int16.buffer)]: each element as two bytes, low byte
    first. *)
Definition int16Bytes (x : Z) : list Z :=
  let u := x mod 65536 in [u mod 256; u / 256].

Definition bufferBytes (samples : list Z) : list Z := flat_map int16Bytes samples.

(** ** The transport encoding ([utils/audio-utils], imported at line 5) *)

(** Modelled from the spec: the alphabet of the base64-style framing that
    [encode] and [decode] of [utils/audio-utils] (not among the sources)
    share; the four definitions after it read and write one character. *)
Definition base64Alphabet : string :=
  "ABCDEFGHIJKLMNOPQRSTUVWXYZabcdefghijklmnopqrstuvwxyz0123456789+/".

Definition padChar : ascii := "="%char.

Definition base64Char (n : Z) : ascii :=
  match String.get (Z.to_nat n) base64Alphabet with
  | Some c => c
  | None => padChar
  end.

Fixpoint indexFrom (i : Z) (c : ascii) (s : string) : option Z :=
  match s with
  | EmptyString => None
  | String d s' => if Ascii.eqb c d then Some i else indexFrom (i + 1) c s'
  end.

Definition base64Index (c : ascii) : option Z := indexFrom 0 c base64Alphabet.

(** Modelled from the spec: [encode] of [utils/audio-utils], which is not
    among the sources.  The spec describes a reversible byte-for-byte text
    framing of the PCM bytes, without compression, in the base64 style:
    three bytes become four characters of the alphabet, and a last group of
    one or two bytes is padded with [=]. *)
Fixpoint encode (bytes : list Z) : string :=
  match bytes with
  | [] => EmptyString
  | [a] =>
      String (base64Char (a / 4)) (String (base64Char (a mod 4 * 16))
        (String padChar (String padChar EmptyString)))
  | [a; b] =>
      String (base64Char (a / 4)) (String (base64Char (a mod 4 * 16 + b / 16))
        (String (base64Char (b mod 16 * 4)) (String padChar EmptyString)))
  | a :: b :: c :: rest =>
      String (base64Char (a / 4)) (String (base64Char (a mod 4 * 16 + b / 16))
        (String (base64Char (b mod 16 * 4 + c / 64))
          (String (base64Char (c mod 64)) (encode rest))))
  end.

(** A padded group is the last one. *)
Definition atEnd (s : string) (r : list Z) : option (list Z) :=
  match s with EmptyString => Some r | String _ _ => None end.

(** Modelled from the spec: [decode] of [utils/audio-utils], the inverse
    framing.  Text that is not a whole number of well-formed groups has no
    decoding. *)
Fixpoint decode (s : string) : option (list Z) :=
  match s with
  | EmptyString => Some []
  | String c0 (String c1 (String c2 (String c3 rest))) =>
      match base64Index c0, base64Index c1 with
      | Some i0, Some i1 =>
          let b0 := i0 * 4 + i1 / 16 in
          if Ascii.eqb c2 padChar then
            if Ascii.eqb c3 padChar then atEnd rest [b0] else None
          else
            match base64Index c2 with
            | Some i2 =>
                let b1 := i1 mod 16 * 16 + i2 / 4 in
                if Ascii.eqb c3 padChar then atEnd rest [b0; b1]
                else
                  match base64Index c3, decode rest with
                  | Some i3, Some bs => Some (b0 :: b1 :: (i2 mod 4 * 64 + i3) :: bs)
                  | _, _ => None
                  end
            | None => None
            end
      | _, _ => None
      end
  | _ => None
  end.

(** Modelled from the spec: the sample view [decodeAudioData] of
    [utils/audio-utils] takes of the decoded bytes, 16-bit signed
    little-endian PCM.  A trailing odd byte holds no sample. *)
Fixpoint int16View (bytes : list Z) : list Z :=
  match bytes with
  | lo :: hi :: rest =>
      let u := lo + 256 * hi in
      (if 32768 <=? u then u - 65536 else u) :: int16View rest
  | _ => []
  end.

(** The two directions as the handlers compose them: line 134 outbound,
    lines 171-176 inbound. *)
Definition encodeSamples (samples : list Z) : string := encode (bufferBytes samples).

Definition decodeSamples (s : string) : option (list Z) := option_map int16View (decode s).

(** ** Double-precision arithmetic *)

(** A JavaScript number that is finite is a rational.  [round64] is the
    rounding of IEEE 754 binary64, to nearest with ties to even: 53
    significant bits down to the exponent -1022, and below it the
    subnormal step 2^-1074.  Results of magnitude 2^1024 and above, which
    round to [Infinity], are outside the model. *)

(** The greatest [k] with [2^k <= x], for a positive [x]. *)
Definition ilog2 (x : Q) : Z :=
  let k := Z.log2 (Qnum x) - Z.log2 (Z.pos (Qden x)) in
  if Qle_bool (2 ^ k) x then k else k - 1.

Definition roundHalfEven (x : Q) : Z :=
  let n := Qfloor x in
  match (x - inject_Z n ?= 1 # 2)%Q with
  | Lt => n
  | Gt => n + 1
  | Eq => if Z.even n then n else n + 1
  end.

(** The exponent of the last place of a positive [x]. *)
Definition quantumExponent (x : Q) : Z := Z.max (ilog2 x) (-1022) - 52.

Definition roundPositive (x : Q) : Q :=
  (inject_Z (roundHalfEven (x / 2 ^ quantumExponent x)) * 2 ^ quantumExponent x)%Q.

Definition round64 (x : Q) : Q :=
  match (x ?= 0)%Q with
  | Eq => 0%Q
  | Gt => roundPositive x
  | Lt => (- roundPositive (- x))%Q
  end.

Arguments round64 x : simpl never.

(** ** The state of the application *)

(** An [AudioBufferSourceNode] is known by the rank of its creation. *)
Definition SourceId := nat.

(** What the scheduler reads of an [AudioBuffer]: its length in sample
    frames and its rate; [duration] is their quotient in seconds, as a
    double. *)
Record AudioBuffer := mkBuffer { frames : N; sampleRate : positive }.

Definition duration (b : AudioBuffer) : Q := round64 (Z.of_N (frames b) # sampleRate b).

(** One call [source.start(when)], with the duration of the source's
    buffer. *)
Record Scheduled := mkScheduled { source : SourceId; startAt : Q; lasts : Q }.

(** The callbacks handed to [ai.live.connect] are closures of the render
    in which [startSession] ran: [onmessage] reads the [currentInput] and
    [currentOutput] of that render, whatever the state becomes later. *)
Record Session := mkSession { closureInput : string; closureOutput : string }.

(** A transcription object; its [text] is optional. *)
Record Transcription := mkTranscription { transcriptionText : option string }.

(** What [prev + transcription.text] appends: the text, or the string
    ["undefined"] when the object has none. *)
Definition appended (t : Transcription) : string :=
  match transcriptionText t with
  | Some text => text
  | None => "undefined"
  end.

(** The fields of a [LiveServerMessage] the handler reads:
    [serverContent.outputTranscription],
    [serverContent.inputTranscription], [serverContent.turnComplete],
    [serverContent.modelTurn.parts[0].inlineData.data] and
    [serverContent.interrupted]. *)
Record LiveServerMessage := mkLiveServerMessage {
  outputTranscription : option Transcription;
  inputTranscription : option Transcription;
  turnComplete : bool;
  inlineData : option string;
  interrupted : bool }.

Record World := mkWorld {
  (* useState *)
  status : ConnectionStatus;
  messages : list Message;
  currentInput : string;
  currentOutput : string;
  textValue : string;
  volume : Q;
  isSpeaking : bool;
  emotion : Emotion;
  (* useRef *)
  sessionRef : option Session;
  nextStartTimeRef : Q;
  sourcesRef : list SourceId;
  (* calls made so far, oldest first *)
  started : list Scheduled;      (* source.start(when) *)
  stopped : list SourceId;       (* source.stop(), at once *)
  closeCalls : nat;              (* session.close() *)
  clientContent : list string;   (* session.sendClientContent *)
  realtimeInput : list string;   (* session.sendRealtimeInput *)
  timers : list Z                (* pending setTimeout callbacks, by due instant *)
}.

Definition initialWorld : World :=
  mkWorld IDLE [] "" "" "" 0 false default None 0 [] [] [] 0 [] [] [].

Definition setStatus (v : ConnectionStatus) (w : World) : World :=
  mkWorld v (messages w) (currentInput w) (currentOutput w) (textValue w) (volume w)
    (isSpeaking w) (emotion w) (sessionRef w) (nextStartTimeRef w) (sourcesRef w)
    (started w) (stopped w) (closeCalls w) (clientContent w) (realtimeInput w) (timers w).
Definition setMessages (v : list Message) (w : World) : World :=
  mkWorld (status w) v (currentInput w) (currentOutput w) (textValue w) (volume w)
    (isSpeaking w) (emotion w) (sessionRef w) (nextStartTimeRef w) (sourcesRef w)
    (started w) (stopped w) (closeCalls w) (clientContent w) (realtimeInput w) (timers w).
Definition setCurrentInput (v : string) (w : World) : World :=
  mkWorld (status w) (messages w) v (currentOutput w) (textValue w) (volume w)
    (isSpeaking w) (emotion w) (sessionRef w) (nextStartTimeRef w) (sourcesRef w)
    (started w) (stopped w) (closeCalls w) (clientContent w) (realtimeInput w) (timers w).
Definition setCurrentOutput (v : string) (w : World) : World :=
  mkWorld (status w) (messages w) (currentInput w) v (textValue w) (volume w)
    (isSpeaking w) (emotion w) (sessionRef w) (nextStartTimeRef w) (sourcesRef w)
    (started w) (stopped w) (closeCalls w) (clientContent w) (realtimeInput w) (timers w).
Definition setTextValue (v : string) (w : World) : World :=
  mkWorld (status w) (messages w) (currentInput w) (currentOutput w) v (volume w)
    (isSpeaking w) (emotion w) (sessionRef w) (nextStartTimeRef w) (sourcesRef w)
    (started w) (stopped w) (closeCalls w) (clientContent w) (realtimeInput w) (timers w).
Definition setVolume (v : Q) (w : World) : World :=
  mkWorld (status w) (messages w) (currentInput w) (currentOutput w) (textValue w) v
    (isSpeaking w) (emotion w) (sessionRef w) (nextStartTimeRef w) (sourcesRef w)
    (started w) (stopped w) (closeCalls w) (clientContent w) (realtimeInput w) (timers w).
Definition setIsSpeaking (v : bool) (w : World) : World :=
  mkWorld (status w) (messages w) (currentInput w) (currentOutput w) (textValue w) (volume w)
    v (emotion w) (sessionRef w) (nextStartTimeRef w) (sourcesRef w)
    (started w) (stopped w) (closeCalls w) (clientContent w) (realtimeInput w) (timers w).
Definition setEmotion (v : Emotion) (w : World) : World :=
  mkWorld (status w) (messages w) (currentInput w) (currentOutput w) (textValue w) (volume w)
    (isSpeaking w) v (sessionRef w) (nextStartTimeRef w) (sourcesRef w)
    (started w) (stopped w) (closeCalls w) (clientContent w) (realtimeInput w) (timers w).
Definition setSessionRef (v : option Session) (w : World) : World :=
  mkWorld (status w) (messages w) (currentInput w) (currentOutput w) (textValue w) (volume w)
    (isSpeaking w) (emotion w) v (nextStartTimeRef w) (sourcesRef w)
    (started w) (stopped w) (closeCalls w) (clientContent w) (realtimeInput w) (timers w).
Definition setNextStartTime (v : Q) (w : World) : World :=
  mkWorld (status w) (messages w) (currentInput w) (currentOutput w) (textValue w) (volume w)
    (isSpeaking w) (emotion w) (sessionRef w) v (sourcesRef w)
    (started w) (stopped w) (closeCalls w) (clientContent w) (realtimeInput w) (timers w).
Definition setSources (v : list SourceId) (w : World) : World :=
  mkWorld (status w) (messages w) (currentInput w) (currentOutput w) (textValue w) (volume w)
    (isSpeaking w) (emotion w) (sessionRef w) (nextStartTimeRef w) v
    (started w) (stopped w) (closeCalls w) (clientContent w) (realtimeInput w) (timers w).
Definition setStarted (v : list Scheduled) (w : World) : World :=
  mkWorld (status w) (messages w) (currentInput w) (currentOutput w) (textValue w) (volume w)
    (isSpeaking w) (emotion w) (sessionRef w) (nextStartTimeRef w) (sourcesRef w)
    v (stopped w) (closeCalls w) (clientContent w) (realtimeInput w) (timers w).
Definition setStopped (v : list SourceId) (w : World) : World :=
  mkWorld (status w) (messages w) (currentInput w) (currentOutput w) (textValue w) (volume w)
    (isSpeaking w) (emotion w) (sessionRef w) (nextStartTimeRef w) (sourcesRef w)
    (started w) v (closeCalls w) (clientContent w) (realtimeInput w) (timers w).
Definition setCloseCalls (v : nat) (w : World) : World :=
  mkWorld (status w) (messages w) (currentInput w) (currentOutput w) (textValue w) (volume w)
    (isSpeaking w) (emotion w) (sessionRef w) (nextStartTimeRef w) (sourcesRef w)
    (started w) (stopped w) v (clientContent w) (realtimeInput w) (timers w).
Definition setClientContent (v : list string) (w : World) : World :=
  mkWorld (status w) (messages w) (currentInput w) (currentOutput w) (textValue w) (volume w)
    (isSpeaking w) (emotion w) (sessionRef w) (nextStartTimeRef w) (sourcesRef w)
    (started w) (stopped w) (closeCalls w) v (realtimeInput w) (timers w).
Definition setRealtimeInput (v : list string) (w : World) : World :=
  mkWorld (status w) (messages w) (currentInput w) (currentOutput w) (textValue w) (volume w)
    (isSpeaking w) (emotion w) (sessionRef w) (nextStartTimeRef w) (sourcesRef w)
    (started w) (stopped w) (closeCalls w) (clientContent w) v (timers w).
Definition setTimers (v : list Z) (w : World) : World :=
  mkWorld (status w) (messages w) (currentInput w) (currentOutput w) (textValue w) (volume w)
    (isSpeaking w) (emotion w) (sessionRef w) (nextStartTimeRef w) (sourcesRef w)
    (started w) (stopped w) (closeCalls w) (clientContent w) (realtimeInput w) v.

Local Open Scope list_scope.

(** ** The emotion effect (App.tsx, lines 83-90) *)

Definition emotionEffect (w : World) : World :=
  if truthy (currentOutput w) then
    let newEmotion := detectEmotion (currentOutput w) in
    if Emotion_eqb newEmotion default then w else setEmotion newEmotion w
  else w.

(** The render that follows a handler: the effect runs when its
    dependency, [currentOutput], differs from the previous render's. *)
Definition render (before : string) (w : World) : World :=
  if String.eqb before (currentOutput w) then w else emotionEffect w.

(** ** Playback (App.tsx, lines 166-198) *)

(** [Set.prototype.add] and [Set.prototype.delete], in insertion order. *)
Definition setAdd (x : SourceId) (s : list SourceId) : list SourceId :=
  if existsb (Nat.eqb x) s then s else s ++ [x].

Definition setDelete (x : SourceId) (s : list SourceId) : list SourceId :=
  filter (fun y => negb (Nat.eqb x y)) s.

(** Lines 167-169, up to the [await]. *)
Definition audioArrives (clock : Q) (w : World) : World :=
  let w1 := setIsSpeaking true w in
  setNextStartTime (Qmax (nextStartTimeRef w1) clock) w1.

(** Lines 178-188, once [decodeAudioData] has produced [audioBuffer]. *)
Definition audioDecoded (audioBuffer : AudioBuffer) (w : World) : World :=
  let src := length (started w) in
  let w1 := setStarted
              (started w ++ [mkScheduled src (nextStartTimeRef w) (duration audioBuffer)]) w in
  let w2 := setNextStartTime (round64 (nextStartTimeRef w1 + duration audioBuffer)) w1 in
  setSources (setAdd src (sourcesRef w2)) w2.

(** The scheduler's operation when nothing runs during the [await]. *)
Definition schedule (clock : Q) (audioBuffer : AudioBuffer) (w : World) : World :=
  audioDecoded audioBuffer (audioArrives clock w).

(** The [ended] listener of a source, lines 181-184. *)
Definition onended (src : SourceId) (w : World) : World :=
  let w1 := setSources (setDelete src (sourcesRef w)) w in
  if Nat.eqb (length (sourcesRef w1)) 0 then setIsSpeaking false w1 else w1.

(** Lines 191-198, and the same four statements at lines 230-235. *)
Definition interrupt (w : World) : World :=
  let w1 := setStopped (stopped w ++ sourcesRef w) w in
  setIsSpeaking false (setNextStartTime 0 (setSources [] w1)).

(** ** Transcripts and turns (App.tsx, lines 146-164) *)

Definition appendTranscription (m : LiveServerMessage) (w : World) : World :=
  match outputTranscription m with
  | Some t => setCurrentOutput (currentOutput w ++ appended t)%string w
  | None =>
      match inputTranscription m with
      | Some t => setCurrentInput (currentInput w ++ appended t)%string w
      | None => w
      end
  end.

(** The [turnComplete] branch.  [currentInput] and [currentOutput] in the
    updater of [setMessages] are the variables of the closure.  [now] is
    the instant of the handler: the readings of [Date.now()] and the base
    of the timer are taken as one instant. *)
Definition flushTurn (s : Session) (now : Z) (w : World) : World :=
  let next :=
    messages w
    ++ (if truthy (closureInput s) then [mkMessage user (closureInput s) now] else [])
    ++ (if truthy (closureOutput s) then [mkMessage model (closureOutput s) now] else []) in
  let w1 := setCurrentOutput "" (setCurrentInput "" (setMessages next w)) in
  setTimers (timers w1 ++ [now + 2000]) w1.

Definition hasAudio (m : LiveServerMessage) : bool :=
  match inlineData m with Some data => truthy data | None => false end.

(** [onmessage] up to its [await] or, for a message without audio, to its
    end. *)
Definition onmessageHead (s : Session) (m : LiveServerMessage) (now : Z) (clock : Q)
    (w : World) : World :=
  let w1 := appendTranscription m w in
  let w2 := if turnComplete m then flushTurn s now w1 else w1 in
  if hasAudio m then audioArrives clock w2
  else if interrupted m then interrupt w2 else w2.

(** [onmessage] from the [await] on. *)
Definition onmessageTail (m : LiveServerMessage) (audioBuffer : AudioBuffer)
    (w : World) : World :=
  let w1 := audioDecoded audioBuffer w in
  if interrupted m then interrupt w1 else w1.

(** The whole of [onmessage] when nothing else runs during its [await];
    [audioBuffer] is what [decodeAudioData] resolves to. *)
Definition onmessage (s : Session) (m : LiveServerMessage) (now : Z) (clock : Q)
    (audioBuffer : AudioBuffer) (w : World) : World :=
  let w1 := onmessageHead s m now clock w in
  if hasAudio m then onmessageTail m audioBuffer w1 else w1.

(** The setTimeout callback of line 163 at its due instant. *)
Fixpoint removeOne (d : Z) (l : list Z) : list Z :=
  match l with
  | [] => []
  | x :: l' => if Z.eqb d x then l' else x :: removeOne d l'
  end.

Definition decayFires (due : Z) (w : World) : World :=
  if existsb (Z.eqb due) (timers w)
  then setEmotion default (setTimers (removeOne due (timers w)) w)
  else w.

(** ** Calls on the channel *)

(** A method call on [sessionRef.current] throws a [TypeError] when the
    ref holds [null]; a handler that throws yields [None]. *)
Definition withSession (call : World -> World) (w : World) : option World :=
  match sessionRef w with
  | Some _ => Some (call w)
  | None => None
  end.

Definition hasSession (w : World) : bool :=
  match sessionRef w with Some _ => true | None => false end.

Definition sendRealtimeInput (data : string) : World -> option World :=
  withSession (fun w => setRealtimeInput (realtimeInput w ++ [data]) w).

Definition sendClientContent (t : string) : World -> option World :=
  withSession (fun w => setClientContent (clientContent w ++ [t]) w).

Definition close : World -> option World :=
  withSession (fun w => setCloseCalls (S (closeCalls w)) w).

(** ** The capture callback (App.tsx, lines 126-141) *)

Definition onaudioprocess (inputData : list Q) (w : World) : option World :=
  let int16 := map sampleToInt16 inputData in
  let data := encode (bufferBytes int16) in
  if hasSession w then sendRealtimeInput data w else Some w.

(** ** Session controls (App.tsx, lines 108-254) *)

(** The session [startSession] is about to open: its callbacks close over
    the current render. *)
Definition newSession (w : World) : Session :=
  mkSession (currentInput w) (currentOutput w).

Definition handleSendText (now : Z) (w : World) : option World :=
  if negb (truthy (trim (textValue w))) || negb (hasSession w) then Some w
  else
    let w1 := interrupt w in
    match sendClientContent (textValue w1) w1 with
    | Some w2 =>
        let w3 := setMessages (messages w2 ++ [mkMessage user (textValue w2) now]) w2 in
        Some (setTextValue "" w3)
    | None => None
    end.

Definition stopSession (w : World) : option World :=
  let closed :=
    if hasSession w then option_map (setSessionRef None) (close w) else Some w in
  match closed with
  | Some w1 => Some (setEmotion default (setVolume 0 (setIsSpeaking false (setStatus IDLE w1))))
  | None => None
  end.

(** ** The event loop *)

(** One task of the single-threaded loop.  A message with audio takes two
    tasks, one on each side of its [await]. *)
Inductive Event :=
| StartClicked                          (* startSession, up to its first await *)
| StartFailed                           (* its catch branch *)
| Opened                                (* onopen *)
| ConnectResolved (s : Session)         (* sessionRef.current = session *)
| ChannelError                          (* onerror *)
| ChannelClosed                         (* onclose *)
| MessageArrived (s : Session) (m : LiveServerMessage) (now : Z) (clock : Q)
| AudioDecoded (m : LiveServerMessage) (audioBuffer : AudioBuffer)
| SourceEnded (src : SourceId)
| DecayDue (due : Z)
| FrameCaptured (inputData : list Q)
| TextChanged (v : string)              (* onChange of the input box *)
| SendClicked (now : Z)                 (* handleSendText *)
| StopClicked.                          (* stopSession *)

(** The guarded handlers return normally on every state (see the
    properties of [stopSession], [handleSendText] and [onaudioprocess]);
    [orKeep] reads their result. *)
Definition orKeep (w : World) (r : option World) : World :=
  match r with Some w' => w' | None => w end.

Definition handle (ev : Event) (w : World) : World :=
  match ev with
  | StartClicked => setStatus CONNECTING w
  | StartFailed => setStatus ERROR w
  | Opened => setStatus CONNECTED w
  | ConnectResolved s => setSessionRef (Some s) w
  | ChannelError => setStatus ERROR w
  | ChannelClosed => setStatus IDLE w
  | MessageArrived s m now clock => onmessageHead s m now clock w
  | AudioDecoded m audioBuffer => onmessageTail m audioBuffer w
  | SourceEnded src => onended src w
  | DecayDue due => decayFires due w
  | FrameCaptured inputData => orKeep w (onaudioprocess inputData w)
  | TextChanged v => setTextValue v w
  | SendClicked now => orKeep w (handleSendText now w)
  | StopClicked => orKeep w (stopSession w)
  end.

Definition step (w : World) (ev : Event) : World :=
  render (currentOutput w) (handle ev w).

Definition run (evs : list Event) (w : World) : World := fold_left step evs w.

(** An event that resets the playback cursor: a message flagged
    [interrupted], or a text send. *)
Definition interrupting (ev : Event) : bool :=
  match ev with
  | MessageArrived _ m _ _ => interrupted m
  | AudioDecoded m _ => interrupted m
  | SendClicked _ => true
  | _ => false
  end.

(** The messages of the remote channel, for the examples. *)
Definition outputFragment (t : string) : LiveServerMessage :=
  mkLiveServerMessage (Some (mkTranscription (Some t))) None false None false.
Definition inputFragment (t : string) : LiveServerMessage :=
  mkLiveServerMessage None (Some (mkTranscription (Some t))) false None false.
Definition turnCompleteSignal : LiveServerMessage :=
  mkLiveServerMessage None None true None false.
Definition audioFragment (data : string) : LiveServerMessage :=
  mkLiveServerMessage None None false (Some data) false.
Definition interruptedSignal : LiveServerMessage :=
  mkLiveServerMessage None None false None true.

(** ** Whole tasks *)

(** A task of the loop when the continuation of a message runs before
    anything else: the handler of a message as a whole, or any single
    event. *)
Inductive Task :=
| Whole (s : Session) (m : LiveServerMessage) (now : Z) (clock : Q)
        (audioBuffer : AudioBuffer)
| Single (ev : Event).

Definition perform (w : World) (t : Task) : World :=
  match t with
  | Whole s m now clock audioBuffer =>
      render (currentOutput w) (onmessage s m now clock audioBuffer w)
  | Single ev => step w ev
  end.

(** ** The volume effect (App.tsx, lines 256-272) *)

(** [dataArray.reduce((a, b) => a + b)], without an initial value: a
    [TypeError] on the empty array. *)
Definition reduceSum (dataArray : list Z) : option Z :=
  match dataArray with
  | [] => None
  | a :: rest => Some (fold_left Z.add rest a)
  end.

(** One frame of [analyze].  [hasContexts] tells whether
    [audioContextsRef.current] is set; [dataArray] is what
    [getByteFrequencyData] wrote, one byte per frequency bin. *)
Definition analyze (hasContexts : bool) (dataArray : list Z) (w : World) : option World :=
  if hasContexts && isSpeaking w then
    match reduceSum dataArray with
    | Some total =>
        let average := (inject_Z total / inject_Z (Z.of_nat (length dataArray)))%Q in
        Some (setVolume (average / 128)%Q w)
    | None => None
    end
  else Some (setVolume 0 w).

(** ** [ConversationDisplay] (components/ConversationDisplay.tsx) *)

(** A bubble of the transcript: a message of the log under its speaker's
    label, or a fragment in progress. *)
Inductive Bubble :=
| Said (label : string) (body : string)
| InProgress (label : string) (body : string).

Definition speakerLabel (r : Role) : string :=
  match r with user => "You" | model => "Maya" end.

Definition conversationDisplay (msgs : list Message) (input output : string) : list Bubble :=
  map (fun msg => Said (speakerLabel (role msg)) (text msg)) msgs
  ++ (if truthy input then [InProgress "You..." input] else [])
  ++ (if truthy output then [InProgress "Maya..." output] else []).

Definition view (w : World) : list Bubble :=
  conversationDisplay (messages w) (currentInput w) (currentOutput w).

(** ** Colours of an emotion (App.tsx, lines 338-356;
       components/AvatarVisualizer.tsx, lines 17-28 and 81-99) *)

(** The five status bars of [App]. *)
Definition statusBarColour (e : Emotion) : string :=
  match e with
  | joy => "bg-amber-400"
  | empathy => "bg-rose-400"
  | calm => "bg-cyan-400"
  | curiosity => "bg-purple-400"
  | frustration => "bg-red-500"
  | surprise => "bg-yellow-300"
  | boredom => "bg-slate-400"
  | default => "bg-blue-400"
  end.

(** The forty wave bars of [AvatarVisualizer]. *)
Definition waveBarColour (e : Emotion) : string :=
  match e with
  | joy => "bg-amber-400"
  | empathy => "bg-rose-400"
  | calm => "bg-cyan-400"
  | curiosity => "bg-purple-400"
  | frustration => "bg-red-500"
  | surprise => "bg-yellow-200"
  | boredom => "bg-slate-500"
  | default => "bg-blue-400"
  end.

Record EmotionConfig := mkEmotionConfig { glow : string; halo : string; pulseSpeed : string }.

Definition emotionConfig (e : Emotion) : EmotionConfig :=
  match e with
  | joy => mkEmotionConfig "from-amber-500/30" "border-amber-400/20" "duration-[1000ms]"
  | empathy => mkEmotionConfig "from-rose-500/30" "border-rose-400/20" "duration-[3000ms]"
  | calm => mkEmotionConfig "from-cyan-500/30" "border-cyan-400/20" "duration-[4000ms]"
  | curiosity => mkEmotionConfig "from-purple-500/30" "border-purple-400/20" "duration-[1500ms]"
  | frustration => mkEmotionConfig "from-red-600/40" "border-red-500/30" "duration-[600ms]"
  | surprise => mkEmotionConfig "from-white/40" "border-yellow-200/40" "duration-[400ms]"
  | boredom => mkEmotionConfig "from-slate-800/20" "border-slate-700/10" "duration-[8000ms]"
  | default => mkEmotionConfig "from-pink-500/10" "border-white/5" "duration-[2000ms]"
  end.

(* ================================================================== *)
(** * Part II - the vocabulary of the specification *)
(* ================================================================== *)

(** ** Keywords in a text *)

Fixpoint lastChar (prev : option ascii) (s : string) : option ascii :=
  match s with
  | EmptyString => prev
  | String c s' => lastChar (Some c) s'
  end.

(** [w] occurs somewhere in [s]. *)
Definition occursIn (w s : string) : Prop :=
  exists pre post, s = (pre ++ w ++ post)%string.

(** [w] occurs in [s] between two word boundaries. *)
Definition occursAsWord (w s : string) : Prop :=
  exists pre post,
    s = (pre ++ w ++ post)%string
    /\ wordBoundary (lastChar None pre) (w ++ post)%string = true
    /\ wordBoundary (lastChar None (pre ++ w)%string) post = true.

Fixpoint startsWith (w s : string) : bool :=
  match w, s with
  | EmptyString, _ => true
  | String c w', String d s' => Ascii.eqb c d && startsWith w' s'
  | String _ _, EmptyString => false
  end.

Fixpoint includes (w s : string) : bool :=
  startsWith w s
  || match s with
     | EmptyString => false
     | String _ s' => includes w s'
     end.

(** The classifier in the words of the specification: an ordered table of
    keyword sets, the first matching category wins, [default] (neutral)
    when none matches. *)
Definition emotionTable : list (Emotion * list string) :=
  [(surprise, surpriseWords); (frustration, frustrationWords);
   (boredom, boredomWords); (joy, joyWords); (empathy, empathyWords);
   (calm, calmWords); (curiosity, curiosityWords)].

Fixpoint firstMatch (table : list (Emotion * list string)) (lower : string) : Emotion :=
  match table with
  | [] => default
  | (e, ws) :: table' => if test ws lower then e else firstMatch table' lower
  end.

Definition classify (text : string) : Emotion :=
  firstMatch emotionTable (toLowerCase text).

Definition allKeywords : list string := flat_map snd emotionTable.

(** ** The capture conversion *)

(** What the specification asks of the capture conversion, in its words:
    [round (f * 32768)] clamped to the int16 range. *)
Definition roundHalfUp (x : Q) : Z := Qfloor (x + (1 # 2))%Q.

Definition clampInt16 (n : Z) : Z := Z.max (-32768) (Z.min 32767 n).

Definition specSampleToInt16 (f : Q) : Z := clampInt16 (roundHalfUp (f * 32768)%Q).

(** ** Schedules *)

(** The cursor a buffer leaves behind: the double nearest to its start
    plus its duration. *)
Definition roundedEnd (e : Scheduled) : Q := round64 (startAt e + lasts e).

(** A log of [start] calls is linked by [key] after [bound]: each buffer
    starts no earlier than the key of the one before it ([bound], for the
    first). *)
Fixpoint linked (key : Scheduled -> Q) (bound : option Q) (l : list Scheduled) : Prop :=
  match l with
  | [] => True
  | e :: l' =>
      match bound with Some b => (b <= startAt e)%Q | None => True end
      /\ linked key (Some (key e)) l'
  end.

(** The key of the last buffer of [l], [bound] when there is none. *)
Fixpoint finalBound (key : Scheduled -> Q) (bound : option Q) (l : list Scheduled)
  : option Q :=
  match l with
  | [] => bound
  | e :: l' => finalBound key (Some (key e)) l'
  end.

Definition cursorCovers (bound : option Q) (w : World) : Prop :=
  match bound with Some b => (b <= nextStartTimeRef w)%Q | None => True end.

(** A time that is a double and not negative, as a reading of
    [currentTime] is. *)
Definition isDouble (x : Q) : Prop := (round64 x == x)%Q.

Definition clockReading (x : Q) : bool := Qle_bool 0 x && Qeq_bool (round64 x) x.

Definition readsClock (ev : Event) : bool :=
  match ev with
  | MessageArrived _ _ _ clock => clockReading clock
  | _ => true
  end.

(** The invariant of section 3: the active set is empty exactly when
    [isSpeaking] is false. *)
Definition speakingAgrees (w : World) : Prop :=
  sourcesRef w = [] <-> isSpeaking w = false.

(** ** Texts *)

Fixpoint allWhiteSpace (s : string) : bool :=
  match s with
  | EmptyString => true
  | String c s' => isWhiteSpace c && allWhiteSpace s'
  end.

(** ** Scenarios *)

(** The session opened by a first click on a fresh application. *)
Definition firstSession : Session := newSession (step initialWorld StartClicked).

Definition opening : list Event := [StartClicked; ConnectResolved firstSession; Opened].

(** Nothing is active: no session, no speech, and the presentation state
    at its resting values. *)
Definition atRest (w : World) : Prop :=
  sessionRef w = None /\ status w = IDLE /\ isSpeaking w = false
  /\ volume w = 0%Q /\ emotion w = default.


(** ** Events by what they touch *)

(** The input text a message adds to the turn: what its input
    transcription appends, unless it carries an output transcription
    too. *)
Definition heardBy (ev : Event) : string :=
  match ev with
  | MessageArrived _ m _ _ =>
      match outputTranscription m, inputTranscription m with
      | None, Some t => appended t
      | _, _ => ""
      end
  | _ => ""
  end.

(** The output text a message adds to the turn. *)
Definition saidBy (ev : Event) : string :=
  match ev with
  | MessageArrived _ m _ _ =>
      match outputTranscription m with Some t => appended t | None => "" end
  | _ => ""
  end.

Definition completesTurn (ev : Event) : bool :=
  match ev with
  | MessageArrived _ m _ _ => turnComplete m
  | _ => false
  end.

Fixpoint concatAll (l : list string) : string :=
  match l with
  | [] => ""
  | s :: l' => (s ++ concatAll l')%string
  end.

(** The events of the connection's life cycle. *)
Definition lifecycle (ev : Event) : bool :=
  match ev with
  | StartClicked | StartFailed | Opened | ChannelError | ChannelClosed
  | StopClicked => true
  | _ => false
  end.

(** The tasks that keep the speaking flag and the active set in step:
    every one but a click on End Session and the two halves of a message
    with audio taken apart. *)
Definition keepsFlag (t : Task) : bool :=
  match t with
  | Whole _ _ _ _ _ => true
  | Single (MessageArrived _ m _ _) => negb (hasAudio m)
  | Single (AudioDecoded _ _) => false
  | Single StopClicked => false
  | Single _ => true
  end.

(** The sources of a log of [start] calls. *)
Definition startedSources (w : World) : list SourceId := map source (started w).

(** The bookkeeping of sources: the active set and the stopped sources
    hold no source twice, share none, and hold started sources only, each
    of which is known by its rank in the log. *)
Definition sourcesTidy (w : World) : Prop :=
  NoDup (sourcesRef w) /\ NoDup (stopped w)
  /\ (forall src, In src (sourcesRef w) -> ~ In src (stopped w))
  /\ (forall src, In src (sourcesRef w) \/ In src (stopped w) ->
                  (src < length (started w))%nat)
  /\ startedSources w = seq 0 (length (started w)).

Definition sendsText (ev : Event) : bool :=
  match ev with SendClicked _ => true | _ => false end.


(** The bubble of a message of the log. *)
Definition logBubble (msg : Message) : Bubble :=
  Said (speakerLabel (role msg)) (text msg).

(** A text made of word characters only. *)
Fixpoint allWordChars (s : string) : bool :=
  match s with
  | EmptyString => true
  | String c s' => isWordChar c && allWordChars s'
  end.
(* ================================================================== *)
(** * Part III - properties *)
(* ================================================================== *)

(** ** The regular expressions against their reading *)

Lemma lastChar_app (a b : string) : forall prev,
  lastChar prev (a ++ b)%string = lastChar (lastChar prev a) b.
Proof.
  induction a as [|c a IH]; intros prev; simpl; [reflexivity | apply IH].
Qed.

Lemma matchLiteral_spec (w : string) : forall prev s p r,
  matchLiteral w prev s = Some (p, r) <-> s = (w ++ r)%string /\ p = lastChar prev w.
Proof.
  induction w as [|c w IH]; intros prev s p r; simpl.
  - split.
    + intros H; inversion H; subst; auto.
    + intros [-> ->]; reflexivity.
  - destruct s as [|d s].
    + split; [discriminate | intros [H _]; discriminate].
    + destruct (Ascii.eqb_spec c d) as [->|Hne].
      * rewrite IH. split; intros [H1 H2]; split; congruence.
      * split; [discriminate | intros [H _]; congruence].
Qed.

Lemma matchLiteral_self (w : string) (prev : option ascii) (r : string) :
  matchLiteral w prev (w ++ r)%string = Some (lastChar prev w, r).
Proof. apply matchLiteral_spec; auto. Qed.

Lemma testFrom_spec (alts : list string) (s : string) : forall prev,
  testFrom alts prev s = true <->
  exists w pre post,
    In w alts /\ s = (pre ++ w ++ post)%string
    /\ wordBoundary (lastChar prev pre) (w ++ post)%string = true
    /\ wordBoundary (lastChar prev (pre ++ w)%string) post = true.
Proof.
  induction s as [|c s IH]; intros prev.
  - split.
    + simpl. rewrite orb_false_r. unfold matchHere.
      intros H. apply andb_prop in H. destruct H as [Hb Hex].
      apply existsb_exists in Hex. destruct Hex as [w [Hin Hw]].
      unfold matchAlternative in Hw.
      destruct (matchLiteral w prev "") as [[p r]|] eqn:E; [|discriminate].
      apply matchLiteral_spec in E. destruct E as [E1 E2].
      exists w, ""%string, r. simpl. rewrite <- E1, <- E2. auto.
    + intros [w [pre [post [Hin [Hs [Hb1 Hb2]]]]]].
      destruct pre; [|discriminate]. simpl in *.
      rewrite orb_false_r. unfold matchHere. rewrite Hs at 1. rewrite Hb1. simpl.
      apply existsb_exists. exists w. split; [assumption|].
      unfold matchAlternative. rewrite Hs, matchLiteral_self. assumption.
  - split.
    + cbn [testFrom]. intros H. apply orb_prop in H. destruct H as [H|H].
      * unfold matchHere in H. apply andb_prop in H. destruct H as [Hb Hex].
        apply existsb_exists in Hex. destruct Hex as [w [Hin Hw]].
        unfold matchAlternative in Hw.
        destruct (matchLiteral w prev (String c s)) as [[p r]|] eqn:E; [|discriminate].
        apply matchLiteral_spec in E. destruct E as [E1 E2].
        exists w, ""%string, r. simpl. rewrite <- E1, <- E2. auto.
      * apply IH in H. destruct H as [w [pre [post [Hin [Hs [Hb1 Hb2]]]]]].
        exists w, (String c pre), post. simpl. rewrite Hs. auto.
    + intros [w [pre [post [Hin [Hs [Hb1 Hb2]]]]]].
      cbn [testFrom]. destruct pre as [|d pre].
      * simpl in *. apply orb_true_intro. left.
        unfold matchHere. rewrite Hs at 1. rewrite Hb1. simpl.
        apply existsb_exists. exists w. split; [assumption|].
        unfold matchAlternative. rewrite Hs, matchLiteral_self. assumption.
      * simpl in Hs. inversion Hs; subst d s. apply orb_true_intro. right.
        apply IH. exists w, pre, post. simpl in Hb1, Hb2. auto.
Qed.

(** [test] holds exactly when one of the alternatives occurs as a word. *)
Lemma test_spec (alts : list string) (s : string) :
  test alts s = true <-> exists w, In w alts /\ occursAsWord w s.
Proof.
  unfold test, occursAsWord. rewrite testFrom_spec. split.
  - intros [w [pre [post [H1 H2]]]]. exists w. split; [assumption|]. exists pre, post. assumption.
  - intros [w [H1 [pre [post H2]]]]. exists w, pre, post. auto.
Qed.

Lemma occursAsWord_test (w s : string) : occursAsWord w s <-> test [w] s = true.
Proof.
  rewrite test_spec. split.
  - intros H. exists w. split; [left; reflexivity | assumption].
  - intros [w' [[<-|[]] H]]. assumption.
Qed.

Lemma occursAsWord_occursIn (w s : string) : occursAsWord w s -> occursIn w s.
Proof. intros [pre [post [H _]]]. exists pre, post. assumption. Qed.

Lemma startsWith_spec (w : string) : forall s,
  startsWith w s = true <-> exists post, s = (w ++ post)%string.
Proof.
  induction w as [|c w IH]; intros s; simpl.
  - split; [intros _; exists s; reflexivity | reflexivity].
  - destruct s as [|d s].
    + split; [discriminate | intros [post H]; discriminate].
    + destruct (Ascii.eqb_spec c d) as [->|Hne]; simpl.
      * rewrite IH. split; intros [post H]; exists post; congruence.
      * split; [discriminate | intros [post H]; congruence].
Qed.

Lemma includes_spec (w s : string) : includes w s = true <-> occursIn w s.
Proof.
  unfold occursIn. induction s as [|c s IH]; cbn [includes].
  - rewrite orb_false_r, startsWith_spec. split.
    + intros [post H]. exists ""%string, post. assumption.
    + intros [pre [post H]]. destruct pre; [|discriminate]. exists post. assumption.
  - split.
    + intros H. apply orb_prop in H. destruct H as [H|H].
      * apply startsWith_spec in H. destruct H as [post H]. exists ""%string, post. assumption.
      * apply IH in H. destruct H as [pre [post H]]. exists (String c pre), post.
        simpl. congruence.
    + intros [pre [post H]]. apply orb_true_intro. destruct pre as [|d pre].
      * left. apply startsWith_spec. exists post. assumption.
      * right. apply IH. simpl in H. inversion H. exists pre, post. reflexivity.
Qed.

Lemma test_false_of_absent (alts : list string) (s : string) :
  (forall w, In w alts -> ~ occursIn w s) -> test alts s = false.
Proof.
  intros H. destruct (test alts s) eqn:E; [|reflexivity].
  apply test_spec in E. destruct E as [w [Hin Hw]].
  exfalso. apply (H w Hin). apply occursAsWord_occursIn. assumption.
Qed.

Lemma test_false_of_no_word (alts : list string) (s : string) :
  (forall w, In w alts -> ~ occursAsWord w s) -> test alts s = false.
Proof.
  intros H. destruct (test alts s) eqn:E; [|reflexivity].
  apply test_spec in E. destruct E as [w [Hin Hw]]. exfalso. exact (H w Hin Hw).
Qed.

(** ** The emotion classifier *)

Lemma no_word_of_forallb (l : list string) (s : string) :
  forallb (fun w => negb (test [w] s)) l = true ->
  forall w, In w l -> ~ occursAsWord w s.
Proof.
  intros H w Hin Hw. rewrite forallb_forall in H. specialize (H w Hin).
  apply occursAsWord_test in Hw. rewrite Hw in H. discriminate.
Qed.

Lemma absent_of_forallb (l : list string) (s : string) :
  forallb (fun w => negb (includes w s)) l = true ->
  forall w, In w l -> ~ occursIn w s.
Proof.
  intros H w Hin Hw. rewrite forallb_forall in H. specialize (H w Hin).
  apply includes_spec in Hw. rewrite Hw in H. discriminate.
Qed.

Lemma test_of_word (alts : list string) (w s : string) :
  In w alts -> occursAsWord w s -> test alts s = true.
Proof. intros Hin Hw. apply test_spec. exists w. auto. Qed.

(** C6, as stated, fails: a text may hold both [happy] and [relax] as
    whole words and be classified [surprise], because a keyword of higher
    precedence is present; and a text may hold [happy] only inside another
    word, next to [relax], and be classified [calm]. *)
Lemma happy_and_relax_without_joy :
  (occursAsWord "happy" (toLowerCase "Wow, happy to relax")
   /\ occursAsWord "relax" (toLowerCase "Wow, happy to relax")
   /\ detectEmotion "Wow, happy to relax" = surprise)
  /\ (occursIn "happy" (toLowerCase "Unhappy? Relax")
      /\ occursIn "relax" (toLowerCase "Unhappy? Relax")
      /\ detectEmotion "Unhappy? Relax" = calm).
Proof.
  repeat split;
    try (apply occursAsWord_test; reflexivity);
    try (apply includes_spec; reflexivity);
    reflexivity.
Qed.

(** C6, amended.  [detectEmotion] is the first-match classifier over the
    table ordered surprise, frustration, boredom, joy, empathy, calm,
    curiosity, on the lower-cased text, with [default] (neutral) when no
    category matches.  A text in which [happy] and [relax] occur as whole
    words and no keyword of surprise, frustration or boredom does is
    classified [joy]; a text in which no keyword occurs at all is
    classified [default]. *)
Theorem detectEmotion_precedence :
  (forall text, detectEmotion text = classify text)
  /\ (forall text,
        occursAsWord "happy" (toLowerCase text) ->
        occursAsWord "relax" (toLowerCase text) ->
        (forall w, In w (surpriseWords ++ frustrationWords ++ boredomWords) ->
                   ~ occursAsWord w (toLowerCase text)) ->
        detectEmotion text = joy)
  /\ (forall text,
        (forall w, In w allKeywords -> ~ occursIn w (toLowerCase text)) ->
        detectEmotion text = default).
Proof.
  split; [|split].
  - intros text. reflexivity.
  - intros text Hhappy _ Hnone. unfold detectEmotion.
    rewrite (test_false_of_no_word surpriseWords),
            (test_false_of_no_word frustrationWords),
            (test_false_of_no_word boredomWords).
    + rewrite (test_of_word joyWords "happy"); [reflexivity | left; reflexivity | assumption].
    + intros w Hin. apply Hnone. apply in_or_app. right. apply in_or_app. right. assumption.
    + intros w Hin. apply Hnone. apply in_or_app. right. apply in_or_app. left. assumption.
    + intros w Hin. apply Hnone. apply in_or_app. left. assumption.
  - intros text Hnone.
    assert (Hsub : forall e ws, In (e, ws) emotionTable ->
                                test ws (toLowerCase text) = false).
    { intros e ws Hin. apply test_false_of_absent. intros w Hw. apply Hnone.
      unfold allKeywords. apply in_flat_map. exists (e, ws). auto. }
    unfold detectEmotion.
    rewrite (Hsub surprise surpriseWords), (Hsub frustration frustrationWords),
            (Hsub boredom boredomWords), (Hsub joy joyWords),
            (Hsub empathy empathyWords), (Hsub calm calmWords),
            (Hsub curiosity curiosityWords);
      [reflexivity | simpl; tauto ..].
Qed.

Lemma detectEmotion_precedence_witness :
  detectEmotion "I am so Happy, just relax" = joy
  /\ detectEmotion "Hello, world" = default.
Proof.
  destruct detectEmotion_precedence as [_ [Hjoy Hnone]]. split.
  - apply Hjoy.
    + apply occursAsWord_test. reflexivity.
    + apply occursAsWord_test. reflexivity.
    + apply no_word_of_forallb. reflexivity.
  - apply Hnone. apply absent_of_forallb. reflexivity.
Defined.

(** ** The capture conversion *)

Lemma truncate_scaled_bounds (f : Q) :
  (-1 <= f)%Q -> (f < 1)%Q -> -32768 <= truncate (f * 32768)%Q <= 32767.
Proof.
  destruct f as [n d]. unfold Qle, Qlt, truncate. simpl. intros Hlo Hhi.
  rewrite Pos.mul_1_r.
  assert (Hd : 0 < Z.pos d) by reflexivity.
  destruct (Z_le_gt_dec 0 n) as [Hn|Hn].
  - rewrite Z.quot_div_nonneg by lia. split.
    + apply Z.le_trans with 0; [lia|]. apply Z.div_pos; lia.
    + apply Z.lt_succ_r. apply Z.div_lt_upper_bound; lia.
  - assert (E : n * 32768 = - (- n * 32768)) by lia. rewrite E, Z.quot_opp_l by lia.
    rewrite Z.quot_div_nonneg by lia. split.
    + assert (- n * 32768 / Z.pos d <= 32768); [|lia].
      apply Z.lt_succ_r. apply Z.div_lt_upper_bound; lia.
    + assert (0 <= - n * 32768 / Z.pos d); [|lia]. apply Z.div_pos; lia.
Qed.

Lemma truncate_sign (x : Q) :
  ((0 <= x)%Q -> 0 <= truncate x) /\ ((x <= 0)%Q -> truncate x <= 0).
Proof.
  destruct x as [n d]. unfold Qle, truncate. simpl. rewrite !Z.mul_1_r. split; intros H.
  - apply Z.quot_pos; lia.
  - assert (E : n = - (- n)) by lia. rewrite E, Z.quot_opp_l by lia.
    assert (0 <= - n ÷ Z.pos d); [|lia]. apply Z.quot_pos; lia.
Qed.

Lemma ToInt16_in_range (x : Q) :
  -32768 <= truncate x <= 32767 -> ToInt16 x = truncate x.
Proof.
  intros H. unfold ToInt16. cbv zeta.
  destruct (Z.leb_spec 32768 (truncate x mod 65536)) as [Hm|Hm];
    Z.to_euclidean_division_equations; lia.
Qed.

(** C5, as stated, fails: the sample 1.0 is stored as -32768, of the
    opposite sign, where rounding with a clamp gives 32767; and half a
    step, 2^-16, is stored as 0 where rounding gives 1. *)
Lemma capture_conversion_wraps_and_truncates :
  (sampleToInt16 1 = -32768 /\ specSampleToInt16 1 = 32767)
  /\ (sampleToInt16 (1 # 65536) = 0 /\ specSampleToInt16 (1 # 65536) = 1).
Proof. repeat split; reflexivity. Qed.

(** C5, amended.  For every sample [f] with [-1 <= f < 1] the conversion
    stores [f * 32768] truncated toward zero; the stored value lies in the
    int16 range and never has the sign opposite to [f]'s; -1.0 is stored
    as -32768. *)
Theorem capture_conversion_truncates (f : Q) :
  (-1 <= f)%Q -> (f < 1)%Q ->
  sampleToInt16 f = truncate (f * 32768)%Q
  /\ is_int16 (sampleToInt16 f)
  /\ ((0 <= f)%Q -> 0 <= sampleToInt16 f)
  /\ ((f <= 0)%Q -> sampleToInt16 f <= 0)
  /\ sampleToInt16 (-1) = -32768.
Proof.
  intros Hlo Hhi.
  pose proof (truncate_scaled_bounds f Hlo Hhi) as Hb.
  assert (E : sampleToInt16 f = truncate (f * 32768)%Q)
    by (apply ToInt16_in_range; assumption).
  rewrite E. repeat split; try (unfold is_int16; lia).
  - intros H. apply truncate_sign.
    apply Qmult_le_0_compat; [assumption | discriminate].
  - intros H. apply truncate_sign.
    setoid_replace 0%Q with (0 * 32768)%Q by reflexivity.
    apply Qmult_le_compat_r; [assumption | discriminate].
Qed.

Lemma capture_conversion_truncates_witness :
  sampleToInt16 (-3 # 4) = truncate ((-3 # 4) * 32768)%Q
  /\ is_int16 (sampleToInt16 (-3 # 4))
  /\ ((0 <= -3 # 4)%Q -> 0 <= sampleToInt16 (-3 # 4))
  /\ ((-3 # 4 <= 0)%Q -> sampleToInt16 (-3 # 4) <= 0)
  /\ sampleToInt16 (-1) = -32768.
Proof.
  apply (capture_conversion_truncates (-3 # 4)).
  - unfold Qle; simpl; lia.
  - unfold Qlt; simpl; lia.
Defined.

(** ** The transport encoding *)

Lemma sextet_cases (P : Z -> Prop) :
  (forall k : nat, (k < 64)%nat -> P (Z.of_nat k)) -> forall n, 0 <= n < 64 -> P n.
Proof.
  intros H n Hn. rewrite <- (Z2Nat.id n) by lia. apply H. lia.
Qed.

Lemma base64Index_Char (n : Z) : 0 <= n < 64 -> base64Index (base64Char n) = Some n.
Proof.
  revert n. apply sextet_cases. intros k Hk.
  assert (Hall : forallb
            (fun k => match base64Index (base64Char (Z.of_nat k)) with
                      | Some m => Z.eqb m (Z.of_nat k)
                      | None => false
                      end) (seq 0 64) = true) by (vm_compute; reflexivity).
  rewrite forallb_forall in Hall. specialize (Hall k).
  destruct (base64Index (base64Char (Z.of_nat k))) as [m|].
  - f_equal. apply Z.eqb_eq. apply Hall. apply in_seq. lia.
  - discriminate Hall. apply in_seq. lia.
Qed.

Lemma base64Char_not_pad (n : Z) :
  0 <= n < 64 -> Ascii.eqb (base64Char n) padChar = false.
Proof.
  revert n. apply sextet_cases. intros k Hk.
  assert (Hall : forallb
            (fun k => negb (Ascii.eqb (base64Char (Z.of_nat k)) padChar))
            (seq 0 64) = true) by (vm_compute; reflexivity).
  rewrite forallb_forall in Hall. apply negb_true_iff. apply Hall. apply in_seq. lia.
Qed.

(** Lists three elements at a time. *)
Lemma list_ind3 {A : Type} (P : list A -> Prop) :
  P [] -> (forall a, P [a]) -> (forall a b, P [a; b]) ->
  (forall a b c l, P l -> P (a :: b :: c :: l)) ->
  forall l, P l.
Proof.
  intros H0 H1 H2 H3 l.
  assert (H : P l /\ (forall a, P (a :: l)) /\ (forall a b, P (a :: b :: l))).
  { induction l as [|x l [IH0 [IH1 IH2]]].
    - auto.
    - repeat split; auto. }
  apply H.
Qed.

Ltac sextet := unfold is_byte in *; Z.to_euclidean_division_equations; lia.

Lemma decode_encode (bytes : list Z) :
  Forall is_byte bytes -> decode (encode bytes) = Some bytes.
Proof.
  induction bytes as [|a|a b|a b c rest IH] using list_ind3; intros Hall.
  - reflexivity.
  - inversion Hall as [|? ? Ha _]; subst. cbn [encode decode].
    rewrite !base64Index_Char by sextet. vm_compute (Ascii.eqb padChar padChar).
    cbn [atEnd]. f_equal. f_equal. sextet.
  - inversion Hall as [|? ? Ha Hall1]; subst. inversion Hall1 as [|? ? Hb _]; subst.
    cbn [encode decode].
    rewrite !base64Index_Char by sextet. rewrite base64Char_not_pad by sextet.
    vm_compute (Ascii.eqb padChar padChar). cbn [atEnd].
    f_equal. f_equal; [sextet|]. f_equal. sextet.
  - inversion Hall as [|? ? Ha Hall1]; subst. inversion Hall1 as [|? ? Hb Hall2]; subst.
    inversion Hall2 as [|? ? Hc Hrest]; subst.
    cbn [encode decode].
    rewrite !base64Index_Char by sextet. rewrite !base64Char_not_pad by sextet.
    rewrite (IH Hrest).
    f_equal. f_equal; [sextet|]. f_equal; [sextet|]. f_equal. sextet.
Qed.

Lemma bufferBytes_bytes (samples : list Z) : Forall is_byte (bufferBytes samples).
Proof.
  induction samples as [|x l IH]; simpl; [constructor|].
  constructor; [sextet|]. constructor; [sextet|]. assumption.
Qed.

Lemma int16View_bufferBytes (samples : list Z) :
  Forall is_int16 samples -> int16View (bufferBytes samples) = samples.
Proof.
  induction 1 as [|x l Hx _ IH]; [reflexivity|].
  cbn [bufferBytes flat_map int16Bytes app int16View].
  fold (bufferBytes l). rewrite IH. f_equal. unfold is_int16 in Hx.
  destruct (Z.leb_spec 32768 (x mod 65536 mod 256 + 256 * (x mod 65536 / 256)));
    Z.to_euclidean_division_equations; lia.
Qed.

(** C2.  Every sequence of int16 samples is recovered exactly from its
    transport encoding: the samples laid out as little-endian bytes and
    framed as text decode to the same samples. *)
Theorem codec_round_trip (x : list Z) :
  Forall is_int16 x -> decodeSamples (encodeSamples x) = Some x.
Proof.
  intros Hx. unfold decodeSamples, encodeSamples.
  rewrite decode_encode by apply bufferBytes_bytes.
  simpl. f_equal. apply int16View_bufferBytes. assumption.
Qed.

Lemma codec_round_trip_witness :
  decodeSamples (encodeSamples [0; 1; -1; 32767; -32768]) = Some [0; 1; -1; 32767; -32768].
Proof.
  apply (codec_round_trip [0; 1; -1; 32767; -32768]).
  repeat constructor; unfold is_int16; lia.
Defined.

(** ** Double-precision arithmetic *)

(** ** Powers of two *)

Lemma two_not_0 : ~ (2 == 0)%Q.
Proof. discriminate. Qed.

Lemma pow2_pos (k : Z) : (0 < 2 ^ k)%Q.
Proof. apply Qpower_0_lt. reflexivity. Qed.

Lemma pow2_not_0 (k : Z) : ~ (2 ^ k == 0)%Q.
Proof. intros H. pose proof (pow2_pos k) as P. rewrite H in P. discriminate. Qed.

Lemma pow2_le (a b : Z) : a <= b -> (2 ^ a <= 2 ^ b)%Q.
Proof. intros H. apply Qpower_le_compat_l; [assumption | discriminate]. Qed.

Lemma pow2_lt_inv (a b : Z) : (2 ^ a < 2 ^ b)%Q -> a < b.
Proof. intros H. apply (Qpower_lt_compat_l_inv 2); [assumption | reflexivity]. Qed.

Lemma pow2_split (a b : Z) : (2 ^ a == 2 ^ (a - b) * 2 ^ b)%Q.
Proof.
  rewrite <- Qpower_plus by apply two_not_0.
  replace (a - b + b) with a by lia. reflexivity.
Qed.

Lemma pow2_Z (a : Z) : 0 <= a -> (inject_Z (2 ^ a) == 2 ^ a)%Q.
Proof. intros H. rewrite Zpower_Qpower by assumption. reflexivity. Qed.

(** ** [ilog2] *)

Lemma ilog2_spec (x : Q) :
  (0 < x)%Q -> (2 ^ ilog2 x <= x)%Q /\ (x < 2 ^ (ilog2 x + 1))%Q.
Proof.
  intros Hx. destruct x as [n d].
  assert (Hn : 0 < n) by (unfold Qlt in Hx; simpl in Hx; lia).
  unfold ilog2. cbn [Qnum Qden].
  set (a := Z.log2 n). set (b := Z.log2 (Z.pos d)).
  pose proof (Z.log2_spec n Hn) as [Ha1 Ha2]. fold a in Ha1, Ha2.
  pose proof (Z.log2_spec (Z.pos d) eq_refl) as [Hb1 Hb2]. fold b in Hb1, Hb2.
  assert (Ha : 0 <= a) by apply Z.log2_nonneg.
  assert (Hb : 0 <= b) by apply Z.log2_nonneg.
  set (x := n # d) in *.
  assert (Hxd : (x * inject_Z (Z.pos d) == inject_Z n)%Q).
  { unfold x, Qeq. simpl. lia. }
  assert (Hd : (0 < inject_Z (Z.pos d))%Q) by reflexivity.
  assert (Hup : (x < 2 ^ (a - b + 1))%Q).
  { apply (Qmult_lt_r _ _ (inject_Z (Z.pos d))); [assumption|]. rewrite Hxd.
    apply Qlt_le_trans with (2 ^ (a + 1))%Q.
    - rewrite <- pow2_Z by lia. rewrite <- Zlt_Qlt. exact Ha2.
    - rewrite (pow2_split (a + 1) b). replace (a + 1 - b) with (a - b + 1) by lia.
      apply Qmult_le_l; [apply pow2_pos|].
      rewrite <- pow2_Z by lia. rewrite <- Zle_Qle. exact Hb1. }
  assert (Hlo : (2 ^ (a - b - 1) < x)%Q).
  { apply (Qmult_lt_r _ _ (inject_Z (Z.pos d))); [assumption|]. rewrite Hxd.
    apply Qlt_le_trans with (2 ^ a)%Q.
    - rewrite (pow2_split a (b + 1)). replace (a - (b + 1)) with (a - b - 1) by lia.
      apply Qmult_lt_l; [apply pow2_pos|].
      rewrite <- pow2_Z by lia. rewrite <- Zlt_Qlt. exact Hb2.
    - rewrite <- pow2_Z by lia. rewrite <- Zle_Qle. exact Ha1. }
  destruct (Qle_bool (2 ^ (a - b)) x) eqn:E.
  - apply Qle_bool_iff in E. split; assumption.
  - split.
    + apply Qlt_le_weak. exact Hlo.
    + replace (a - b - 1 + 1) with (a - b) by lia.
      apply Qnot_le_lt. intros H. apply Qle_bool_iff in H. congruence.
Qed.

Lemma ilog2_unique (x : Q) (k : Z) :
  (2 ^ k <= x)%Q -> (x < 2 ^ (k + 1))%Q -> ilog2 x = k.
Proof.
  intros H1 H2.
  assert (Hx : (0 < x)%Q) by (apply Qlt_le_trans with (2 ^ k)%Q; [apply pow2_pos | assumption]).
  destruct (ilog2_spec x Hx) as [H3 H4].
  assert (k < ilog2 x + 1) by (apply pow2_lt_inv; apply Qle_lt_trans with x; assumption).
  assert (ilog2 x < k + 1) by (apply pow2_lt_inv; apply Qle_lt_trans with x; assumption).
  lia.
Qed.

Lemma ilog2_mono (x y : Q) : (0 < x)%Q -> (x <= y)%Q -> ilog2 x <= ilog2 y.
Proof.
  intros Hx Hxy.
  assert (Hy : (0 < y)%Q) by (apply Qlt_le_trans with x; assumption).
  destruct (ilog2_spec x Hx) as [H1 _]. destruct (ilog2_spec y Hy) as [_ H2].
  assert (ilog2 x < ilog2 y + 1); [|lia].
  apply pow2_lt_inv. apply Qle_lt_trans with x; [assumption|].
  apply Qle_lt_trans with y; assumption.
Qed.

Lemma ilog2_comp (x y : Q) : (0 < x)%Q -> (x == y)%Q -> ilog2 x = ilog2 y.
Proof.
  intros Hx E. destruct (ilog2_spec x Hx) as [H1 H2].
  symmetry. apply ilog2_unique; rewrite <- E; assumption.
Qed.

(** ** Rounding to an integer *)

Lemma roundHalfEven_bounds (x : Q) :
  Qfloor x <= roundHalfEven x <= Qfloor x + 1.
Proof.
  unfold roundHalfEven. cbv zeta.
  destruct (x - inject_Z (Qfloor x) ?= 1 # 2)%Q; try lia.
  destruct (Z.even (Qfloor x)); lia.
Qed.

Lemma roundHalfEven_comp (x y : Q) : (x == y)%Q -> roundHalfEven x = roundHalfEven y.
Proof.
  intros E. unfold roundHalfEven. cbv zeta.
  rewrite (Qfloor_comp x y E).
  assert (E' : (x - inject_Z (Qfloor y) == y - inject_Z (Qfloor y))%Q) by (rewrite E; reflexivity).
  rewrite (Qcompare_comp _ _ E' (1 # 2) (1 # 2) (Qeq_refl _)). reflexivity.
Qed.

Lemma roundHalfEven_Z (m : Z) : roundHalfEven (inject_Z m) = m.
Proof.
  unfold roundHalfEven. cbv zeta. rewrite Qfloor_Z.
  assert (E : (inject_Z m - inject_Z m ?= 1 # 2)%Q = Lt).
  { apply Qlt_alt. setoid_replace (inject_Z m - inject_Z m)%Q with 0%Q by ring. reflexivity. }
  rewrite E. reflexivity.
Qed.

Lemma roundHalfEven_mono (x y : Q) : (x <= y)%Q -> roundHalfEven x <= roundHalfEven y.
Proof.
  intros H. pose proof (Qfloor_resp_le x y H) as Hf.
  pose proof (roundHalfEven_bounds x) as Bx. pose proof (roundHalfEven_bounds y) as By.
  destruct (Z.eq_dec (Qfloor x) (Qfloor y)) as [E|E]; [|lia].
  unfold roundHalfEven in *. cbv zeta in *. rewrite E in *.
  assert (Hd : (x - inject_Z (Qfloor y) <= y - inject_Z (Qfloor y))%Q).
  { apply Qplus_le_l. assumption. }
  destruct (y - inject_Z (Qfloor y) ?= 1 # 2)%Q eqn:Cy.
  - apply Qeq_alt in Cy.
    destruct (x - inject_Z (Qfloor y) ?= 1 # 2)%Q eqn:Cx.
    + lia.
    + destruct (Z.even (Qfloor y)); lia.
    + apply Qgt_alt in Cx. rewrite Cy in Hd. exfalso. exact (Qlt_not_le _ _ Cx Hd).
  - apply Qlt_alt in Cy.
    assert (Cx : (x - inject_Z (Qfloor y) ?= 1 # 2)%Q = Lt).
    { apply Qlt_alt. apply Qle_lt_trans with (y - inject_Z (Qfloor y))%Q; assumption. }
    rewrite Cx. lia.
  - destruct (x - inject_Z (Qfloor y) ?= 1 # 2)%Q; lia.
Qed.

Lemma roundHalfEven_ge (m : Z) (x : Q) : (inject_Z m <= x)%Q -> m <= roundHalfEven x.
Proof. intros H. rewrite <- (roundHalfEven_Z m). apply roundHalfEven_mono. assumption. Qed.

Lemma roundHalfEven_le (m : Z) (x : Q) : (x <= inject_Z m)%Q -> roundHalfEven x <= m.
Proof. intros H. rewrite <- (roundHalfEven_Z m). apply roundHalfEven_mono. assumption. Qed.

(** ** [round64] *)

Lemma round64_pos (x : Q) : (0 < x)%Q -> round64 x = roundPositive x.
Proof. intros H. unfold round64. apply Qgt_alt in H. rewrite H. reflexivity. Qed.

Lemma round64_zero (x : Q) : (x == 0)%Q -> round64 x = 0%Q.
Proof. intros H. unfold round64. apply Qeq_alt in H. rewrite H. reflexivity. Qed.

Lemma roundPositive_nonneg (x : Q) : (0 <= x)%Q -> (0 <= roundPositive x)%Q.
Proof.
  intros H. unfold roundPositive. apply Qmult_le_0_compat.
  - rewrite <- (Zle_Qle 0). apply roundHalfEven_ge.
    apply Qle_shift_div_l; [apply pow2_pos|]. rewrite Qmult_0_l. assumption.
  - apply Qlt_le_weak, pow2_pos.
Qed.

Lemma round64_nonneg (x : Q) : (0 <= x)%Q -> (0 <= round64 x)%Q.
Proof.
  intros H. destruct (Qlt_le_dec 0 x) as [Hp|Hn].
  - rewrite round64_pos by assumption. apply roundPositive_nonneg. assumption.
  - rewrite round64_zero; [apply Qle_refl | apply Qle_antisym; assumption].
Qed.

Lemma quantumExponent_mono (x y : Q) :
  (0 < x)%Q -> (x <= y)%Q -> quantumExponent x <= quantumExponent y.
Proof.
  intros Hx Hxy. unfold quantumExponent. pose proof (ilog2_mono x y Hx Hxy). lia.
Qed.

(** Adding a duration to a double never gives less than the double. *)
Lemma round64_add_ge (s d : Q) :
  (0 <= s)%Q -> (round64 s == s)%Q -> (0 <= d)%Q -> (s <= round64 (s + d))%Q.
Proof.
  intros Hs Hr Hd.
  assert (Hy : (s <= s + d)%Q).
  { rewrite <- (Qplus_0_r s) at 1. apply Qplus_le_r. assumption. }
  destruct (Qlt_le_dec 0 s) as [Hp|Hn].
  2:{ apply Qle_trans with 0%Q; [assumption|]. apply round64_nonneg.
      apply Qle_trans with s; assumption. }
  assert (Hyp : (0 < s + d)%Q) by (apply Qlt_le_trans with s; assumption).
  rewrite round64_pos in Hr by assumption. rewrite round64_pos by assumption.
  unfold roundPositive in *.
  set (y := (s + d)%Q) in *.
  pose proof (ilog2_mono s y Hp Hy) as Hi.
  destruct (ilog2_spec s Hp) as [_ Hs2]. destruct (ilog2_spec y Hyp) as [Hy1 _].
  destruct (Z.eq_dec (quantumExponent s) (quantumExponent y)) as [E|E].
  - rewrite <- Hr at 1. rewrite <- E.
    apply Qmult_le_compat_r; [|apply Qlt_le_weak, pow2_pos].
    rewrite <- Zle_Qle. apply roundHalfEven_mono.
    apply Qmult_le_compat_r; [assumption|].
    apply Qlt_le_weak. apply Qinv_lt_0_compat. apply pow2_pos.
  - assert (Hq : quantumExponent y = ilog2 y - 52 /\ ilog2 s + 1 <= ilog2 y)
      by (unfold quantumExponent in *; lia).
    destruct Hq as [Hq Hlt].
    apply Qle_trans with (2 ^ ilog2 y)%Q.
    + apply Qlt_le_weak. apply Qlt_le_trans with (2 ^ (ilog2 s + 1))%Q; [assumption|].
      apply pow2_le. assumption.
    + rewrite (pow2_split (ilog2 y) (quantumExponent y)).
      apply Qmult_le_compat_r; [|apply Qlt_le_weak, pow2_pos].
      replace (ilog2 y - quantumExponent y) with 52 by lia.
      setoid_replace (2 ^ 52)%Q with (inject_Z 4503599627370496) by reflexivity.
      rewrite <- Zle_Qle. apply roundHalfEven_ge.
      apply Qle_shift_div_l; [apply pow2_pos|].
      setoid_replace (inject_Z 4503599627370496) with (2 ^ 52)%Q by reflexivity.
      rewrite <- Qpower_plus by apply two_not_0.
      replace (52 + quantumExponent y) with (ilog2 y) by lia. assumption.
Qed.

(** A positive multiple of its own last place is its own rounding. *)
Lemma roundPositive_exact (z : Q) (k : Z) :
  (z == inject_Z k * 2 ^ quantumExponent z)%Q -> (roundPositive z == z)%Q.
Proof.
  intros H. unfold roundPositive.
  assert (E : (z / 2 ^ quantumExponent z == inject_Z k)%Q).
  { rewrite H at 1. apply Qdiv_mult_l. apply pow2_not_0. }
  rewrite (roundHalfEven_comp _ _ E), roundHalfEven_Z. symmetry. assumption.
Qed.

Lemma multiple_is_exact (n e : Z) :
  0 < n <= 9007199254740992 -> -1074 <= e ->
  e = -1074 \/ 4503599627370496 <= n ->
  (roundPositive (inject_Z n * 2 ^ e) == inject_Z n * 2 ^ e)%Q.
Proof.
  intros Hn He Hc. set (z := (inject_Z n * 2 ^ e)%Q).
  assert (Hz : (0 < z)%Q).
  { unfold z. apply Qmult_lt_0_compat; [|apply pow2_pos]. rewrite <- (Zlt_Qlt 0). lia. }
  assert (P52 : (inject_Z 4503599627370496 == 2 ^ 52)%Q) by reflexivity.
  assert (P53 : (inject_Z 9007199254740992 == 2 ^ 53)%Q) by reflexivity.
  destruct (Z.eq_dec n 9007199254740992) as [E53|N53].
  - (* the rounding reached the next binade *)
    assert (Ez : (z == 2 ^ (e + 53))%Q).
    { unfold z. rewrite E53, P53, <- Qpower_plus by apply two_not_0.
      replace (53 + e) with (e + 53) by lia. reflexivity. }
    assert (Ei : ilog2 z = e + 53).
    { apply ilog2_unique; rewrite Ez; [apply Qle_refl|].
      apply Qpower_lt_compat_l; [lia | reflexivity]. }
    apply (roundPositive_exact z 4503599627370496).
    unfold quantumExponent. rewrite Ei.
    replace (Z.max (e + 53) (-1022) - 52) with (e + 1) by lia.
    rewrite Ez, P52, <- Qpower_plus by apply two_not_0.
    replace (52 + (e + 1)) with (e + 53) by lia. reflexivity.
  - apply (roundPositive_exact z n). fold z.
    assert (Eq : quantumExponent z = e); [|rewrite Eq; reflexivity].
    destruct (Z_le_gt_dec 4503599627370496 n) as [Hnorm|Hsub].
    + assert (Ei : ilog2 z = e + 52).
      { apply ilog2_unique; unfold z.
        - rewrite (Qpower_plus 2 e 52) by apply two_not_0. rewrite Qmult_comm.
          apply Qmult_le_compat_r; [|apply Qlt_le_weak, pow2_pos].
          rewrite <- P52, <- Zle_Qle. assumption.
        - replace (e + 52 + 1) with (53 + e) by lia.
          rewrite (Qpower_plus 2 53 e) by apply two_not_0.
          apply Qmult_lt_r; [apply pow2_pos|].
          rewrite <- P53, <- Zlt_Qlt. lia. }
      unfold quantumExponent. rewrite Ei. lia.
    + assert (e = -1074) by lia. subst e.
      destruct (ilog2_spec z Hz) as [H1 _].
      assert (Hlt : (z < 2 ^ (-1022))%Q).
      { unfold z. rewrite (pow2_split (-1022) (-1074)).
        replace (-1022 - -1074) with 52 by lia.
        apply Qmult_lt_r; [apply pow2_pos|]. rewrite <- P52, <- Zlt_Qlt. lia. }
      assert (ilog2 z < -1022) by (apply pow2_lt_inv; apply Qle_lt_trans with z; assumption).
      unfold quantumExponent. lia.
Qed.

Lemma roundPositive_significand (y : Q) :
  (0 < y)%Q ->
  0 <= roundHalfEven (y / 2 ^ quantumExponent y) <= 9007199254740992
  /\ -1074 <= quantumExponent y
  /\ (quantumExponent y = -1074
      \/ 4503599627370496 <= roundHalfEven (y / 2 ^ quantumExponent y)).
Proof.
  intros Hy. destruct (ilog2_spec y Hy) as [H1 H2].
  assert (P52 : (inject_Z 4503599627370496 == 2 ^ 52)%Q) by reflexivity.
  assert (P53 : (inject_Z 9007199254740992 == 2 ^ 53)%Q) by reflexivity.
  set (e := quantumExponent y).
  assert (He : e = Z.max (ilog2 y) (-1022) - 52) by reflexivity.
  assert (Hup : (y / 2 ^ e <= inject_Z 9007199254740992)%Q).
  { apply Qle_shift_div_r; [apply pow2_pos|].
    rewrite P53, <- Qpower_plus by apply two_not_0.
    apply Qlt_le_weak. apply Qlt_le_trans with (2 ^ (ilog2 y + 1))%Q; [assumption|].
    apply pow2_le. lia. }
  repeat split.
  - apply roundHalfEven_ge. apply Qle_shift_div_l; [apply pow2_pos|].
    rewrite Qmult_0_l. apply Qlt_le_weak. assumption.
  - apply roundHalfEven_le. assumption.
  - lia.
  - destruct (Z_le_gt_dec (-1022) (ilog2 y)) as [Hn|Hs]; [right | left; lia].
    apply roundHalfEven_ge. apply Qle_shift_div_l; [apply pow2_pos|].
    rewrite P52, <- Qpower_plus by apply two_not_0.
    replace (52 + e) with (ilog2 y) by lia. assumption.
Qed.

(** A rounded value is a double: rounding it again changes nothing. *)
Lemma round64_idempotent (y : Q) : (0 <= y)%Q -> (round64 (round64 y) == round64 y)%Q.
Proof.
  intros Hy. destruct (Qlt_le_dec 0 y) as [Hp|Hn].
  2:{ rewrite (round64_zero y) by (apply Qle_antisym; assumption). reflexivity. }
  rewrite (round64_pos y Hp).
  destruct (roundPositive_significand y Hp) as [[Hn0 Hn1] [He Hc]].
  unfold roundPositive.
  set (n := roundHalfEven (y / 2 ^ quantumExponent y)) in *.
  set (e := quantumExponent y) in *.
  destruct (Z.eq_dec n 0) as [E0|N0].
  - rewrite E0. rewrite round64_zero by ring. ring.
  - assert (Hz : (0 < inject_Z n * 2 ^ e)%Q).
    { apply Qmult_lt_0_compat; [|apply pow2_pos]. rewrite <- (Zlt_Qlt 0). lia. }
    rewrite round64_pos by assumption.
    apply multiple_is_exact; [lia | assumption | assumption].
Qed.

Lemma Qmax_cases (a b : Q) : Qmax a b = a \/ Qmax a b = b.
Proof.
  unfold Qmax, GenericMinMax.gmax. destruct (a ?= b)%Q; auto.
Qed.

(** ** The playback scheduler *)

Lemma duration_nonneg (b : AudioBuffer) : (0 <= duration b)%Q.
Proof. unfold duration. apply round64_nonneg. unfold Qle. simpl. lia. Qed.

Lemma linked_app (key : Scheduled -> Q) (l1 l2 : list Scheduled) : forall bound,
  linked key bound (l1 ++ l2) <->
  linked key bound l1 /\ linked key (finalBound key bound l1) l2.
Proof.
  induction l1 as [|e l1 IH]; intros bound; simpl.
  - tauto.
  - rewrite IH. tauto.
Qed.

Lemma finalBound_app (key : Scheduled -> Q) (l1 l2 : list Scheduled) : forall bound,
  finalBound key bound (l1 ++ l2) = finalBound key (finalBound key bound l1) l2.
Proof.
  induction l1 as [|e l1 IH]; intros bound; simpl; [reflexivity | apply IH].
Qed.

Lemma linked_consecutive (key : Scheduled -> Q) (l : list Scheduled) : forall bound i a b,
  linked key bound l ->
  nth_error l i = Some a -> nth_error l (S i) = Some b ->
  (key a <= startAt b)%Q.
Proof.
  induction l as [|e l IH]; intros bound i a b Hc Ha Hb.
  - destruct i; discriminate.
  - destruct i as [|i].
    + simpl in Ha. inversion Ha; subst e. destruct l as [|e' l]; [discriminate|].
      simpl in Hb. inversion Hb; subst e'.
      simpl in Hc. destruct Hc as [_ [Hle _]]. assumption.
    + simpl in Hc. destruct Hc as [_ Hc].
      apply (IH (Some (key e)) i a b Hc Ha Hb).
Qed.

Lemma render_started (b : string) (w : World) : started (render b w) = started w.
Proof.
  unfold render, emotionEffect.
  destruct (String.eqb b (currentOutput w)); [reflexivity|].
  destruct (truthy (currentOutput w)); [|reflexivity].
  destruct (Emotion_eqb _ _); reflexivity.
Qed.

Lemma render_nextStartTime (b : string) (w : World) :
  nextStartTimeRef (render b w) = nextStartTimeRef w.
Proof.
  unfold render, emotionEffect.
  destruct (String.eqb b (currentOutput w)); [reflexivity|].
  destruct (truthy (currentOutput w)); [|reflexivity].
  destruct (Emotion_eqb _ _); reflexivity.
Qed.

(** What a task that does not interrupt does to the cursor and to the
    log of [start] calls: it leaves both alone; or, being the first half
    of a message, it leaves the log alone and moves the cursor to the
    maximum of the cursor and the message's clock reading; or it starts
    one buffer at the cursor and moves the cursor to the rounded sum of
    the cursor and the buffer's duration. *)
Lemma step_schedules (w : World) (ev : Event) :
  interrupting ev = false ->
  (started (step w ev) = started w
   /\ (nextStartTimeRef (step w ev) = nextStartTimeRef w
       \/ exists s m now clock,
            ev = MessageArrived s m now clock
            /\ nextStartTimeRef (step w ev) = Qmax (nextStartTimeRef w) clock))
  \/ (exists audioBuffer,
        started (step w ev)
        = started w ++ [mkScheduled (length (started w)) (nextStartTimeRef w)
                                    (duration audioBuffer)]
        /\ nextStartTimeRef (step w ev)
           = round64 (nextStartTimeRef w + duration audioBuffer)).
Proof.
  intros Hev. unfold step. rewrite render_started, render_nextStartTime.
  destruct ev; simpl in Hev; try discriminate; cbn [handle];
    try (left; split; [reflexivity | left; reflexivity]).
  - (* MessageArrived *)
    left. unfold onmessageHead. rewrite Hev.
    assert (E : forall w0, started (if turnComplete m then flushTurn s now w0 else w0)
                           = started w0
                /\ nextStartTimeRef (if turnComplete m then flushTurn s now w0 else w0)
                   = nextStartTimeRef w0)
      by (intros w0; destruct (turnComplete m); split; reflexivity).
    assert (E' : started (appendTranscription m w) = started w
                 /\ nextStartTimeRef (appendTranscription m w) = nextStartTimeRef w).
    { unfold appendTranscription.
      destruct (outputTranscription m); [split; reflexivity|].
      destruct (inputTranscription m); split; reflexivity. }
    destruct (E (appendTranscription m w)) as [E1 E2]. destruct E' as [E3 E4].
    destruct (hasAudio m); cbn [audioArrives started nextStartTimeRef setNextStartTime
                                setIsSpeaking].
    + rewrite E1, E2, E3, E4. split; [reflexivity|]. right.
      exists s, m, now, clock. split; reflexivity.
    + rewrite E1, E2, E3, E4. split; [reflexivity | left; reflexivity].
  - (* AudioDecoded *)
    right. exists audioBuffer. unfold onmessageTail. rewrite Hev. split; reflexivity.
  - (* SourceEnded *)
    left. unfold onended.
    destruct (Nat.eqb _ 0); split; try reflexivity; left; reflexivity.
  - (* DecayDue *)
    left. unfold decayFires.
    destruct (existsb _ _); split; try reflexivity; left; reflexivity.
  - (* FrameCaptured *)
    left. unfold onaudioprocess, sendRealtimeInput, withSession, hasSession.
    destruct (sessionRef w); split; try reflexivity; left; reflexivity.
  - (* StopClicked *)
    left. unfold stopSession, close, withSession, hasSession.
    destruct (sessionRef w); split; try reflexivity; left; reflexivity.
Qed.

Lemma step_cursor_le (w : World) (ev : Event) :
  nextStartTimeRef (step w ev) = nextStartTimeRef w
  \/ (exists s m now clock,
        ev = MessageArrived s m now clock
        /\ nextStartTimeRef (step w ev) = Qmax (nextStartTimeRef w) clock) ->
  (nextStartTimeRef w <= nextStartTimeRef (step w ev))%Q.
Proof.
  intros [H | [s [m [now [clock [_ H]]]]]]; rewrite H;
    [apply Qle_refl | apply Q.le_max_l].
Qed.

(** The scheduler's invariant along a run without interruption: in the
    log, each buffer starts no earlier than the rounded end of the one
    before it, and the cursor is not before the rounded end of the last
    one. *)
Lemma run_schedules (evs : list Event) : forall w new,
  forallb (fun ev => negb (interrupting ev)) evs = true ->
  linked roundedEnd None new -> cursorCovers (finalBound roundedEnd None new) w ->
  exists more,
    started (run evs w) = started w ++ more
    /\ linked roundedEnd None (new ++ more)
    /\ cursorCovers (finalBound roundedEnd None (new ++ more)) (run evs w).
Proof.
  induction evs as [|ev evs IH]; intros w new Hevs Hchain Hcur.
  - exists []. simpl. rewrite !app_nil_r. auto.
  - simpl in Hevs. apply andb_prop in Hevs. destruct Hevs as [Hev Hevs].
    apply negb_true_iff in Hev. simpl.
    destruct (step_schedules w ev Hev) as [[Hs Hn] | [buf [Hs Hn]]].
    + destruct (IH (step w ev) new Hevs Hchain) as [more [H1 [H2 H3]]].
      * unfold cursorCovers in *. destruct (finalBound roundedEnd None new); [|exact I].
        apply Qle_trans with (nextStartTimeRef w); [assumption|].
        apply step_cursor_le. assumption.
      * exists more. rewrite <- Hs. auto.
    + set (e := mkScheduled (length (started w)) (nextStartTimeRef w) (duration buf)) in *.
      destruct (IH (step w ev) (new ++ [e]) Hevs) as [more [H1 [H2 H3]]].
      * apply linked_app. split; [assumption|]. simpl. split; [exact Hcur | exact I].
      * rewrite finalBound_app. simpl. rewrite Hn. apply Qle_refl.
      * exists (e :: more). rewrite H1, Hs, <- !app_assoc in *. simpl in *. auto.
Qed.

Lemma isDouble_Qmax (a b : Q) : isDouble a -> isDouble b -> isDouble (Qmax a b).
Proof. intros Ha Hb. destruct (Qmax_cases a b) as [E|E]; rewrite E; assumption. Qed.

Lemma clockReading_spec (x : Q) : clockReading x = true -> (0 <= x)%Q /\ isDouble x.
Proof.
  unfold clockReading, isDouble. intros H. apply andb_prop in H. destruct H as [H1 H2].
  split; [apply Qle_bool_iff | apply Qeq_bool_iff]; assumption.
Qed.

(** With clock readings that are doubles, the cursor is a double that
    never moves back, and the starts of the log ascend. *)
Lemma run_ascends (evs : list Event) : forall w new,
  forallb (fun ev => negb (interrupting ev)) evs = true ->
  forallb readsClock evs = true ->
  (0 <= nextStartTimeRef w)%Q -> isDouble (nextStartTimeRef w) ->
  linked startAt None new -> cursorCovers (finalBound startAt None new) w ->
  exists more,
    started (run evs w) = started w ++ more
    /\ linked startAt None (new ++ more).
Proof.
  induction evs as [|ev evs IH]; intros w new Hevs Hclk H0 Hd Hchain Hcur.
  - exists []. simpl. rewrite !app_nil_r. auto.
  - simpl in Hevs. apply andb_prop in Hevs. destruct Hevs as [Hev Hevs].
    simpl in Hclk. apply andb_prop in Hclk. destruct Hclk as [Hc Hclk].
    apply negb_true_iff in Hev. simpl.
    destruct (step_schedules w ev Hev) as [[Hs Hn] | [buf [Hs Hn]]].
    + destruct (IH (step w ev) new Hevs Hclk) as [more [H1 H2]]; try assumption.
      * apply Qle_trans with (nextStartTimeRef w); [assumption|].
        apply step_cursor_le. assumption.
      * destruct Hn as [Hn | [s [m [now [clock [E Hn]]]]]]; rewrite Hn; [assumption|].
        subst ev. simpl in Hc. apply clockReading_spec in Hc.
        apply isDouble_Qmax; tauto.
      * unfold cursorCovers in *. destruct (finalBound startAt None new); [|exact I].
        apply Qle_trans with (nextStartTimeRef w); [assumption|].
        apply step_cursor_le. assumption.
      * exists more. rewrite <- Hs. auto.
    + set (e := mkScheduled (length (started w)) (nextStartTimeRef w) (duration buf)) in *.
      assert (Hup : (nextStartTimeRef w <= nextStartTimeRef (step w ev))%Q).
      { rewrite Hn. apply round64_add_ge; [assumption | exact Hd | apply duration_nonneg]. }
      destruct (IH (step w ev) (new ++ [e]) Hevs Hclk) as [more [H1 H2]].
      * apply Qle_trans with (nextStartTimeRef w); assumption.
      * unfold isDouble. rewrite Hn. apply round64_idempotent.
        rewrite <- (Qplus_0_r 0). apply Qplus_le_compat; [assumption | apply duration_nonneg].
      * apply linked_app. split; [assumption|]. simpl. split; [exact Hcur | exact I].
      * rewrite finalBound_app. simpl. exact Hup.
      * exists (e :: more). rewrite H1, Hs, <- !app_assoc in *. simpl in *. auto.
Qed.

(** C1, as stated, fails.  Two buffers of half a second arrive, the
    output clock reading 0.1 (the double 3602879701896397 / 2^55) at the
    first and 0.25 at the second.  The first starts at its clock reading;
    the cursor becomes the double nearest to 0.1 + 0.5, which is
    5404319552844595 / 2^53, and the second buffer starts there: 2^-55 s
    before the first buffer's start plus its duration. *)
Lemma second_start_below_exact_end :
  let log :=
    started
      (run [MessageArrived firstSession (audioFragment "AAAA") 10
              (3602879701896397 # 36028797018963968);
            AudioDecoded (audioFragment "AAAA") (mkBuffer 12000 24000);
            MessageArrived firstSession (audioFragment "AAAA") 20 (1 # 4);
            AudioDecoded (audioFragment "AAAA") (mkBuffer 12000 24000)]
           initialWorld) in
  let first := nth 0 log (mkScheduled 0%nat 0%Q 0%Q) in
  let second := nth 1 log (mkScheduled 0%nat 0%Q 0%Q) in
  length log = 2%nat
  /\ (startAt first == 3602879701896397 # 36028797018963968)%Q
  /\ (lasts first == 1 # 2)%Q
  /\ (startAt second == 5404319552844595 # 9007199254740992)%Q
  /\ ~ (startAt first + lasts first <= startAt second)%Q.
Proof.
  cbv zeta. split; [reflexivity|]. split; [vm_compute; reflexivity|].
  split; [vm_compute; reflexivity|]. split; [vm_compute; reflexivity|].
  apply Qlt_not_le. vm_compute. reflexivity.
Qed.

(** C1, amended.  A buffer is started at the maximum of the cursor and
    the output clock, and the cursor then moves to the double nearest to
    that start plus the buffer's duration.  Along any run of tasks without
    an interruption, also when other tasks run during the [await] of a
    message, each buffer starts no earlier than the rounded sum of its
    predecessor's start and duration; and when the clock readings are
    doubles that are not negative, as the cursor the run begins with, the
    starts are monotonically non-decreasing. *)
Theorem playback_non_overlap :
  (forall clock audioBuffer w,
     started (schedule clock audioBuffer w)
     = started w ++ [mkScheduled (length (started w))
                                 (Qmax (nextStartTimeRef w) clock)
                                 (duration audioBuffer)]
     /\ nextStartTimeRef (schedule clock audioBuffer w)
        = round64 (Qmax (nextStartTimeRef w) clock + duration audioBuffer))
  /\ (forall evs w,
        forallb (fun ev => negb (interrupting ev)) evs = true ->
        exists new,
          started (run evs w) = started w ++ new
          /\ (forall i a b,
                nth_error new i = Some a -> nth_error new (S i) = Some b ->
                (round64 (startAt a + lasts a) <= startAt b)%Q)
          /\ (forallb readsClock evs = true ->
              (0 <= nextStartTimeRef w)%Q -> isDouble (nextStartTimeRef w) ->
              forall i a b,
                nth_error new i = Some a -> nth_error new (S i) = Some b ->
                (startAt a <= startAt b)%Q)).
Proof.
  split.
  - intros clock audioBuffer w. split; reflexivity.
  - intros evs w Hevs.
    destruct (run_schedules evs w [] Hevs I I) as [more [H1 [H2 _]]].
    exists more. split; [assumption|]. split.
    + intros i a b Ha Hb.
      apply (linked_consecutive roundedEnd more None i a b); assumption.
    + intros Hclk H0 Hd i a b Ha Hb.
      destruct (run_ascends evs w [] Hevs Hclk H0 Hd I I) as [more' [H1' H2']].
      rewrite H1 in H1'. apply app_inv_head in H1'. subst more'.
      apply (linked_consecutive startAt more None i a b); assumption.
Qed.

Lemma playback_non_overlap_witness :
  exists new,
    started (run [MessageArrived firstSession (audioFragment "AAAA") 10 (1 # 2);
                  AudioDecoded (audioFragment "AAAA") (mkBuffer 24000 24000);
                  MessageArrived firstSession (audioFragment "AAAA") 20 1;
                  AudioDecoded (audioFragment "AAAA") (mkBuffer 12000 24000)]
                 initialWorld)
    = started initialWorld ++ new
    /\ (forall i a b,
          nth_error new i = Some a -> nth_error new (S i) = Some b ->
          (round64 (startAt a + lasts a) <= startAt b)%Q)
    /\ (forall i a b,
          nth_error new i = Some a -> nth_error new (S i) = Some b ->
          (startAt a <= startAt b)%Q).
Proof.
  destruct (proj2 playback_non_overlap
              [MessageArrived firstSession (audioFragment "AAAA") 10 (1 # 2);
               AudioDecoded (audioFragment "AAAA") (mkBuffer 24000 24000);
               MessageArrived firstSession (audioFragment "AAAA") 20 1;
               AudioDecoded (audioFragment "AAAA") (mkBuffer 12000 24000)]
              initialWorld eq_refl) as [new [H1 [H2 H3]]].
  exists new. split; [exact H1|]. split; [exact H2|].
  apply H3; [vm_compute; reflexivity | unfold Qle; simpl; lia | vm_compute; reflexivity].
Defined.

(** ** Interruption *)

Lemma In_setAdd (x y : SourceId) (s : list SourceId) : In y s -> In y (setAdd x s).
Proof.
  unfold setAdd. destruct (existsb (Nat.eqb x) s); [auto|].
  intros H. apply in_or_app. left. assumption.
Qed.

Lemma sourcesRef_before_await (s : Session) (m : LiveServerMessage) (now : Z) (w : World) :
  sourcesRef (if turnComplete m then flushTurn s now (appendTranscription m w)
              else appendTranscription m w) = sourcesRef w.
Proof.
  assert (E : sourcesRef (appendTranscription m w) = sourcesRef w).
  { unfold appendTranscription.
    destruct (outputTranscription m); [reflexivity|].
    destruct (inputTranscription m); reflexivity. }
  destruct (turnComplete m); simpl; assumption.
Qed.

(** C3.  After [interrupt], every source that was in the active set has
    received [stop()], the set is empty, the cursor is 0 and [isSpeaking]
    is false; the buffer scheduled next starts at the output clock.  A
    message flagged [interrupted] ends its handler with [interrupt], run
    on a state whose active set holds every source active when the message
    arrived. *)
Theorem interrupt_clears_playback (w : World) :
  (forall src, In src (sourcesRef w) -> In src (stopped (interrupt w)))
  /\ sourcesRef (interrupt w) = []
  /\ nextStartTimeRef (interrupt w) = 0%Q
  /\ isSpeaking (interrupt w) = false
  /\ (forall clock audioBuffer,
        (0 <= clock)%Q ->
        exists e,
          started (schedule clock audioBuffer (interrupt w))
          = started (interrupt w) ++ [e]
          /\ (startAt e == clock)%Q)
  /\ (forall s m now clock audioBuffer,
        interrupted m = true ->
        exists w1,
          onmessage s m now clock audioBuffer w = interrupt w1
          /\ incl (sourcesRef w) (sourcesRef w1)).
Proof.
  repeat split.
  - intros src Hin. simpl. apply in_or_app. right. assumption.
  - intros clock audioBuffer Hclock.
    exists (mkScheduled (length (started w)) (Qmax 0 clock) (duration audioBuffer)).
    split; [reflexivity|]. simpl. apply Q.max_r. assumption.
  - intros s m now clock audioBuffer Hint.
    unfold onmessage, onmessageHead, onmessageTail. rewrite Hint.
    destruct (hasAudio m).
    + eexists. split; [reflexivity|].
      intros src Hin. simpl. apply In_setAdd.
      rewrite sourcesRef_before_await. assumption.
    + eexists. split; [reflexivity|].
      intros src Hin. rewrite sourcesRef_before_await. assumption.
Qed.

Lemma interrupt_clears_playback_witness :
  exists e,
    started (schedule (3 # 2) (mkBuffer 24000 24000)
               (interrupt (schedule 0 (mkBuffer 48000 24000) initialWorld)))
    = started (interrupt (schedule 0 (mkBuffer 48000 24000) initialWorld)) ++ [e]
    /\ (startAt e == 3 # 2)%Q.
Proof.
  destruct (interrupt_clears_playback (schedule 0 (mkBuffer 48000 24000) initialWorld))
    as [_ [_ [_ [_ [H _]]]]].
  apply H. unfold Qle. simpl. lia.
Defined.

(** ** Turns *)

Lemma flushTurn_messages (s : Session) (now : Z) (w : World) :
  messages (flushTurn s now w)
  = messages w
    ++ (if truthy (closureInput s) then [mkMessage user (closureInput s) now] else [])
    ++ (if truthy (closureOutput s) then [mkMessage model (closureOutput s) now] else []).
Proof. reflexivity. Qed.

(** Whatever was accumulated, a session opened while both buffers were
    empty flushes nothing. *)
Lemma flushTurn_of_empty_closure (now : Z) (w w0 : World) :
  currentInput w0 = "" -> currentOutput w0 = "" ->
  messages (flushTurn (newSession w0) now w) = messages w.
Proof.
  intros Hi Ho. rewrite flushTurn_messages. unfold newSession. simpl.
  rewrite Hi, Ho. simpl. apply app_nil_r.
Qed.

(** C4, on the code.  On a fresh application a session is opened; the
    fragments "Hel" (input), "Hi " (output), "lo" (input), "there" (output)
    arrive and accumulate to "Hello" and "Hi there"; at the turn-complete
    signal both buffers are cleared and the Message log stays empty, where
    the claim has two entries appended. *)
Theorem turn_complete_flushes_closure :
  let accumulated :=
    run (opening ++
         [MessageArrived firstSession (inputFragment "Hel") 10 0;
          MessageArrived firstSession (outputFragment "Hi ") 20 0;
          MessageArrived firstSession (inputFragment "lo") 30 0;
          MessageArrived firstSession (outputFragment "there") 40 0])
        initialWorld in
  let flushed := step accumulated (MessageArrived firstSession turnCompleteSignal 50 0) in
  currentInput accumulated = "Hello"
  /\ currentOutput accumulated = "Hi there"
  /\ messages flushed = []
  /\ currentInput flushed = ""
  /\ currentOutput flushed = "".
Proof. repeat split; reflexivity. Qed.

(** ** The speaking flag *)

Lemma setAdd_nonempty (x : SourceId) (s : list SourceId) : setAdd x s <> [].
Proof.
  unfold setAdd. destruct s as [|y s]; simpl; [discriminate|].
  destruct (Nat.eqb x y || existsb (Nat.eqb x) s); discriminate.
Qed.

Lemma speakingAgrees_interrupt (w : World) : speakingAgrees (interrupt w).
Proof. unfold speakingAgrees. simpl. tauto. Qed.

(** Between whole handlers of messages the flag and the active set
    agree. *)
Lemma speakingAgrees_onmessage (s : Session) (m : LiveServerMessage) (now : Z)
    (clock : Q) (audioBuffer : AudioBuffer) (w : World) :
  speakingAgrees w -> speakingAgrees (onmessage s m now clock audioBuffer w).
Proof.
  intros H. unfold onmessage, onmessageHead, onmessageTail.
  set (w2 := if turnComplete m then flushTurn s now (appendTranscription m w)
             else appendTranscription m w).
  assert (E1 : sourcesRef w2 = sourcesRef w) by apply sourcesRef_before_await.
  assert (E2 : isSpeaking w2 = isSpeaking w).
  { unfold w2, appendTranscription. destruct (turnComplete m);
      destruct (outputTranscription m); try reflexivity;
      destruct (inputTranscription m); reflexivity. }
  destruct (hasAudio m).
  - destruct (interrupted m); [apply speakingAgrees_interrupt|].
    unfold speakingAgrees. simpl. split; [intros E | discriminate].
    exfalso. exact (setAdd_nonempty _ _ E).
  - destruct (interrupted m); [apply speakingAgrees_interrupt|].
    unfold speakingAgrees. rewrite E1, E2. exact H.
Qed.

Lemma speakingAgrees_onended (src : SourceId) (w : World) :
  speakingAgrees w -> speakingAgrees (onended src w).
Proof.
  intros H. unfold onended. cbn [sourcesRef setSources].
  destruct (setDelete src (sourcesRef w)) as [|y l] eqn:E; cbn [length Nat.eqb].
  - unfold speakingAgrees. simpl. tauto.
  - unfold speakingAgrees in *. cbn [sourcesRef isSpeaking setSources].
    split; [discriminate|]. intros Hs. apply H in Hs. rewrite Hs in E. discriminate.
Qed.

Lemma speakingAgrees_handleSendText (now : Z) (w w' : World) :
  speakingAgrees w -> handleSendText now w = Some w' -> speakingAgrees w'.
Proof.
  intros H. unfold handleSendText, sendClientContent, withSession.
  destruct (negb (truthy (trim (textValue w))) || negb (hasSession w)).
  - intros E. inversion E; subst. assumption.
  - simpl. destruct (sessionRef w); [|discriminate].
    intros E. inversion E; subst. unfold speakingAgrees. simpl. tauto.
Qed.

(** A message with audio raises the flag before its [await] and
    registers its source after it: while the handler is suspended the flag
    is up over an empty set. *)
Lemma speaking_before_source :
  let awaiting :=
    run (opening ++ [MessageArrived firstSession (audioFragment "AAAA") 10 (1 # 2)])
        initialWorld in
  isSpeaking awaiting = true /\ sourcesRef awaiting = [].
Proof. split; reflexivity. Qed.

(** C7, on the code.  A buffer of thirty seconds is scheduled and is
    playing; End Session is clicked, and a session is started again.  From
    the click on, [isSpeaking] is false while the source is still in the
    active set, never stopped: so it is in the second session, once
    connected. *)
Theorem stop_keeps_sources_active :
  let playing :=
    run (opening ++
         [MessageArrived firstSession (audioFragment "AAAA") 10 (1 # 2);
          AudioDecoded (audioFragment "AAAA") (mkBuffer 720000 24000)])
        initialWorld in
  let ended := step playing StopClicked in
  let restarted := run opening ended in
  (speakingAgrees playing /\ sourcesRef playing = [0%nat])
  /\ (status ended = IDLE /\ sourcesRef ended = [0%nat] /\ isSpeaking ended = false)
  /\ status restarted = CONNECTED
  /\ sourcesRef restarted = [0%nat]
  /\ stopped restarted = []
  /\ isSpeaking restarted = false
  /\ ~ speakingAgrees restarted.
Proof.
  cbv zeta. repeat split; try reflexivity; try discriminate.
  unfold speakingAgrees. intros [_ H]. specialize (H eq_refl). discriminate.
Qed.

(** ** The decay of the emotion *)

Lemma render_timers (b : string) (w : World) : timers (render b w) = timers w.
Proof.
  unfold render, emotionEffect.
  destruct (String.eqb b (currentOutput w)); [reflexivity|].
  destruct (truthy (currentOutput w)); [|reflexivity].
  destruct (Emotion_eqb _ _); reflexivity.
Qed.

Lemma In_removeOne (d x : Z) (l : list Z) : x <> d -> In x l -> In x (removeOne d l).
Proof.
  intros Hne. induction l as [|y l IH]; simpl; [auto|].
  intros [->|Hin].
  - destruct (Z.eqb_spec d x); [congruence | left; reflexivity].
  - destruct (Z.eqb d y); [assumption | right; auto].
Qed.

Lemma existsb_eqb_of_In (d : Z) (l : list Z) : In d l -> existsb (Z.eqb d) l = true.
Proof.
  intros H. apply existsb_exists. exists d. split; [assumption | apply Z.eqb_refl].
Qed.

(** C8, as stated, fails.  A turn completes at instant 100 with the
    emotion at [calm]; at instant 1000 the next turn's first fragment is
    classified [surprise], the decay of the earlier turn still pending for
    2100; when that decay fires the emotion is reset to [default]. *)
Lemma stale_decay_resets_new_emotion :
  let before :=
    run (opening ++
         [MessageArrived firstSession (outputFragment "stay calm") 0 0;
          MessageArrived firstSession turnCompleteSignal 100 0;
          MessageArrived firstSession (outputFragment "Wow!") 1000 0])
        initialWorld in
  emotion before = surprise
  /\ timers before = [2100]
  /\ emotion (step before (DecayDue 2100)) = default.
Proof. repeat split; reflexivity. Qed.

(** C8, amended.  The turn-complete branch handled at instant [now] leaves
    a decay pending for [now + 2000]; no task cancels a pending decay, a
    later turn's accumulation and classification included: it stays
    pending until it fires; and when it fires the emotion becomes
    [default], whatever it was. *)
Theorem decay_is_never_cancelled :
  (forall s now w, timers (flushTurn s now w) = timers w ++ [now + 2000])
  /\ (forall w ev due,
        In due (timers w) -> ev <> DecayDue due -> In due (timers (step w ev)))
  /\ (forall w due,
        In due (timers w) -> emotion (step w (DecayDue due)) = default).
Proof.
  split; [|split].
  - intros s now w. reflexivity.
  - intros w ev due Hin Hev. unfold step. rewrite render_timers.
    destruct ev; cbn [handle]; try assumption.
    + unfold onmessageHead.
      assert (E : In due (timers (appendTranscription m w))).
      { unfold appendTranscription. destruct (outputTranscription m); [assumption|].
        destruct (inputTranscription m); assumption. }
      assert (E' : In due (timers (if turnComplete m
                                   then flushTurn s now (appendTranscription m w)
                                   else appendTranscription m w))).
      { destruct (turnComplete m); [|assumption].
        simpl. apply in_or_app. left. assumption. }
      destruct (hasAudio m); [assumption|]. destruct (interrupted m); assumption.
    + unfold onmessageTail. destruct (interrupted m); assumption.
    + unfold onended. destruct (Nat.eqb _ 0); assumption.
    + unfold decayFires. destruct (existsb (Z.eqb due0) (timers w)); [|assumption].
      simpl. apply In_removeOne; [|assumption]. congruence.
    + unfold onaudioprocess, sendRealtimeInput, withSession, hasSession.
      destruct (sessionRef w); assumption.
    + unfold handleSendText, sendClientContent, withSession, hasSession.
      destruct (sessionRef w) eqn:Es; simpl; [|rewrite orb_true_r; assumption].
      rewrite orb_false_r. destruct (negb _); [assumption|].
      rewrite Es. assumption.
    + unfold stopSession, close, withSession, hasSession.
      destruct (sessionRef w); assumption.
  - intros w due Hin. unfold step. cbn [handle]. unfold decayFires.
    rewrite (existsb_eqb_of_In due _ Hin).
    unfold render. cbn [currentOutput setEmotion setTimers].
    rewrite String.eqb_refl. reflexivity.
Qed.

Lemma decay_is_never_cancelled_witness :
  In 2100 (timers (step (run (opening ++
                               [MessageArrived firstSession turnCompleteSignal 100 0])
                              initialWorld)
                        (MessageArrived firstSession (outputFragment "Wow!") 1000 0)))
  /\ emotion (step (run (opening ++
                          [MessageArrived firstSession turnCompleteSignal 100 0;
                           MessageArrived firstSession (outputFragment "Wow!") 1000 0])
                        initialWorld)
                   (DecayDue 2100)) = default.
Proof.
  destruct decay_is_never_cancelled as [_ [Hkeep Hfire]]. split.
  - apply Hkeep; [simpl; auto | discriminate].
  - apply Hfire. simpl. auto.
Defined.

(** ** Stopping *)

Lemma World_eta (w : World) :
  mkWorld (status w) (messages w) (currentInput w) (currentOutput w) (textValue w)
    (volume w) (isSpeaking w) (emotion w) (sessionRef w) (nextStartTimeRef w)
    (sourcesRef w) (started w) (stopped w) (closeCalls w) (clientContent w)
    (realtimeInput w) (timers w) = w.
Proof. destruct w; reflexivity. Qed.

(** C9.  [stopSession] never throws.  Called twice in succession it
    returns normally both times, with the status at [IDLE] after each
    call, and the second call changes nothing.  Called when no session is
    open it makes no call on the channel, on a source or on a timer and
    leaves the refs alone; called when nothing is active it leaves the
    whole state as it is. *)
Theorem stopSession_idempotent (w : World) :
  (exists w1,
     stopSession w = Some w1 /\ status w1 = IDLE
     /\ stopSession w1 = Some w1)
  /\ (sessionRef w = None ->
      exists w1,
        stopSession w = Some w1
        /\ closeCalls w1 = closeCalls w /\ stopped w1 = stopped w
        /\ started w1 = started w /\ timers w1 = timers w
        /\ clientContent w1 = clientContent w /\ realtimeInput w1 = realtimeInput w
        /\ sourcesRef w1 = sourcesRef w /\ nextStartTimeRef w1 = nextStartTimeRef w)
  /\ (atRest w -> stopSession w = Some w).
Proof.
  split; [|split].
  - unfold stopSession, close, withSession, hasSession.
    destruct (sessionRef w) eqn:Es; cbn [option_map]; eexists;
      (split; [reflexivity|]); (split; [reflexivity|]);
      cbn [sessionRef setEmotion setVolume setIsSpeaking setStatus setSessionRef];
      rewrite ?Es; reflexivity.
  - intros Hs. unfold stopSession, close, withSession, hasSession. rewrite Hs.
    eexists. split; [reflexivity|]. repeat split.
  - intros [Hs [Hst [Hsp [Hv He]]]].
    unfold stopSession, close, withSession, hasSession. rewrite Hs. f_equal.
    rewrite <- (World_eta w) at 2. rewrite Hs, Hst, Hsp, Hv, He.
    unfold setEmotion, setVolume, setIsSpeaking, setStatus. simpl. rewrite Hs. reflexivity.
Qed.

Lemma stopSession_idempotent_witness :
  (exists w1,
     stopSession initialWorld = Some w1
     /\ closeCalls w1 = closeCalls initialWorld /\ stopped w1 = stopped initialWorld
     /\ started w1 = started initialWorld /\ timers w1 = timers initialWorld
     /\ clientContent w1 = clientContent initialWorld
     /\ realtimeInput w1 = realtimeInput initialWorld
     /\ sourcesRef w1 = sourcesRef initialWorld
     /\ nextStartTimeRef w1 = nextStartTimeRef initialWorld)
  /\ stopSession initialWorld = Some initialWorld.
Proof.
  destruct (stopSession_idempotent initialWorld) as [_ [Hnone Hrest]]. split.
  - apply Hnone. reflexivity.
  - apply Hrest. unfold atRest. simpl. repeat split; reflexivity.
Defined.

(** ** Sending text *)

Lemma trimStart_blank (s : string) : allWhiteSpace s = true -> trimStart s = "".
Proof.
  induction s as [|c s IH]; simpl; [reflexivity|].
  intros H. apply andb_prop in H. destruct H as [Hc Hs]. rewrite Hc. auto.
Qed.

Lemma trimEnd_empty (s : string) : trimEnd s = "" -> allWhiteSpace s = true.
Proof.
  induction s as [|c s IH]; simpl; [reflexivity|].
  destruct (trimEnd s) eqn:E; [|discriminate].
  destruct (isWhiteSpace c); [|discriminate]. intros _. simpl. apply IH. reflexivity.
Qed.

Lemma trimStart_head (s : string) :
  match trimStart s with
  | EmptyString => allWhiteSpace s = true
  | String c _ => isWhiteSpace c = false
  end.
Proof.
  induction s as [|c s IH]; simpl; [reflexivity|].
  destruct (isWhiteSpace c) eqn:E; simpl; assumption.
Qed.

(** [trim] answers the empty string exactly on the texts that are empty
    or hold white space only. *)
Lemma trim_empty_iff (s : string) : trim s = "" <-> allWhiteSpace s = true.
Proof.
  unfold trim. split.
  - intros H. pose proof (trimStart_head s) as Hh.
    destruct (trimStart s) as [|c t]; [assumption|].
    apply trimEnd_empty in H. simpl in H. rewrite Hh in H. discriminate.
  - intros H. rewrite trimStart_blank by assumption. reflexivity.
Qed.

(** C10.  When the pending text is empty or white space only, or no
    session is open, [handleSendText] returns at its guard: the state is
    unchanged, so no source is stopped, the cursor and [isSpeaking] are as
    before, nothing is sent, no message is appended and the pending text
    stays. *)
Theorem handleSendText_guard (now : Z) (w : World) :
  allWhiteSpace (textValue w) = true \/ sessionRef w = None ->
  handleSendText now w = Some w
  /\ step w (SendClicked now) = w
  /\ stopped (step w (SendClicked now)) = stopped w
  /\ nextStartTimeRef (step w (SendClicked now)) = nextStartTimeRef w
  /\ isSpeaking (step w (SendClicked now)) = isSpeaking w
  /\ clientContent (step w (SendClicked now)) = clientContent w
  /\ messages (step w (SendClicked now)) = messages w
  /\ textValue (step w (SendClicked now)) = textValue w.
Proof.
  intros H.
  assert (E : handleSendText now w = Some w).
  { unfold handleSendText, hasSession. destruct H as [H|H].
    - apply trim_empty_iff in H. rewrite H. reflexivity.
    - rewrite H. rewrite orb_true_r. reflexivity. }
  assert (E' : step w (SendClicked now) = w).
  { unfold step. cbn [handle]. rewrite E. cbn [orKeep].
    unfold render. rewrite String.eqb_refl. reflexivity. }
  rewrite E'. repeat split; assumption || reflexivity.
Qed.

Lemma handleSendText_guard_witness :
  handleSendText 5 (setTextValue "   " (run opening initialWorld))
  = Some (setTextValue "   " (run opening initialWorld))
  /\ handleSendText 5 (setTextValue "hello" initialWorld)
     = Some (setTextValue "hello" initialWorld).
Proof.
  split.
  - apply (handleSendText_guard 5 (setTextValue "   " (run opening initialWorld))).
    left. reflexivity.
  - apply (handleSendText_guard 5 (setTextValue "hello" initialWorld)).
    right. reflexivity.
Defined.

(** Past the guard the four steps of the text send do happen. *)
Lemma handleSendText_sends (now : Z) (w : World) (s : Session) :
  sessionRef w = Some s -> allWhiteSpace (textValue w) = false ->
  exists w', handleSendText now w = Some w'
    /\ sourcesRef w' = [] /\ nextStartTimeRef w' = 0%Q /\ isSpeaking w' = false
    /\ clientContent w' = clientContent w ++ [textValue w]
    /\ messages w' = messages w ++ [mkMessage user (textValue w) now]
    /\ textValue w' = "".
Proof.
  intros Hs Hb. unfold handleSendText, sendClientContent, withSession, hasSession.
  rewrite Hs. destruct (trim (textValue w)) eqn:E.
  - apply trim_empty_iff in E. congruence.
  - cbn [truthy negb orb sessionRef interrupt setIsSpeaking setNextStartTime setSources
         setStopped]. rewrite Hs. eexists. split; [reflexivity|]. repeat split.
Qed.

(** The capture callback is guarded in the same way: it sends one chunk
    when a session is open and otherwise does nothing. *)
Lemma onaudioprocess_returns (inputData : list Q) (w : World) :
  exists w', onaudioprocess inputData w = Some w'
    /\ (sessionRef w = None -> w' = w)
    /\ (sessionRef w <> None ->
        realtimeInput w'
        = realtimeInput w ++ [encodeSamples (map sampleToInt16 inputData)]).
Proof.
  unfold onaudioprocess, sendRealtimeInput, withSession, hasSession, encodeSamples.
  destruct (sessionRef w) as [s|]; eexists; (split; [reflexivity|]); split;
    intros H; try reflexivity; congruence.
Qed.

(* ================================================================== *)
(** * Part IV - further properties of the code *)
(* ================================================================== *)

(** ** The capture conversion on every input *)

(** X1.  Whatever the sample, the value stored in the [Int16Array] is an
    int16, congruent modulo 2^16 to the product truncated toward zero: a
    product outside the int16 range wraps around, it does not saturate. *)
Theorem sampleToInt16_wraps (f : Q) :
  is_int16 (sampleToInt16 f)
  /\ sampleToInt16 f mod 65536 = truncate (f * 32768)%Q mod 65536
  /\ exists k, sampleToInt16 f = truncate (f * 32768)%Q - 65536 * k.
Proof.
  unfold sampleToInt16, ToInt16, is_int16. cbv zeta.
  set (t := truncate (f * 32768)%Q).
  destruct (Z.leb_spec 32768 (t mod 65536)) as [H|H].
  - split; [|split].
    + Z.to_euclidean_division_equations; lia.
    + Z.to_euclidean_division_equations; lia.
    + exists (t / 65536 + 1). Z.to_euclidean_division_equations; lia.
  - split; [|split].
    + Z.to_euclidean_division_equations; lia.
    + Z.to_euclidean_division_equations; lia.
    + exists (t / 65536). Z.to_euclidean_division_equations; lia.
Qed.

Lemma nth_error_bufferBytes (samples : list Z) : forall i x,
  nth_error samples i = Some x ->
  nth_error (bufferBytes samples) (2 * i) = Some (x mod 65536 mod 256)
  /\ nth_error (bufferBytes samples) (2 * i + 1) = Some (x mod 65536 / 256).
Proof.
  induction samples as [|y l IH]; intros i x H.
  - destruct i; discriminate.
  - destruct i as [|i].
    + simpl in H. inversion H; subst. split; reflexivity.
    + simpl in H. destruct (IH i x H) as [H1 H2].
      replace (2 * S i)%nat with (S (S (2 * i))) by lia.
      replace (S (S (2 * i)) + 1)%nat with (S (S (2 * i + 1))) by lia.
      split; assumption.
Qed.

(** X2.  The byte view of a frame holds two bytes per sample, the low byte
    first: the bytes at [2i] and [2i+1] recombine to sample [i] modulo
    2^16. *)
Theorem bufferBytes_layout (samples : list Z) :
  length (bufferBytes samples) = (2 * length samples)%nat
  /\ Forall is_byte (bufferBytes samples)
  /\ forall i x,
       nth_error samples i = Some x ->
       exists lo hi,
         nth_error (bufferBytes samples) (2 * i) = Some lo
         /\ nth_error (bufferBytes samples) (2 * i + 1) = Some hi
         /\ lo + 256 * hi = x mod 65536.
Proof.
  split; [|split].
  - induction samples as [|y l IH]; simpl; [reflexivity|]. rewrite IH. lia.
  - apply bufferBytes_bytes.
  - intros i x H. destruct (nth_error_bufferBytes samples i x H) as [H1 H2].
    exists (x mod 65536 mod 256), (x mod 65536 / 256).
    repeat split; try assumption. Z.to_euclidean_division_equations; lia.
Qed.

(** ** The classifier *)

Lemma lowerChar_idempotent (c : ascii) : lowerChar (lowerChar c) = lowerChar c.
Proof. destruct c as [[] [] [] [] [] [] [] []]; reflexivity. Qed.

Lemma toLowerCase_idempotent (s : string) : toLowerCase (toLowerCase s) = toLowerCase s.
Proof.
  induction s as [|c s IH]; simpl; [reflexivity|].
  rewrite lowerChar_idempotent, IH. reflexivity.
Qed.

Lemma toLowerCase_app (a b : string) :
  toLowerCase (a ++ b)%string = (toLowerCase a ++ toLowerCase b)%string.
Proof. induction a as [|c a IH]; simpl; [reflexivity | rewrite IH; reflexivity]. Qed.

(** X3.  The classification does not depend on letter case: a text and
    its lower-cased form are classified alike, and so are two texts with
    the same lower-cased form. *)
Theorem detectEmotion_ignores_case :
  (forall text, detectEmotion (toLowerCase text) = detectEmotion text)
  /\ (forall a b, toLowerCase a = toLowerCase b -> detectEmotion a = detectEmotion b).
Proof.
  split.
  - intros text. unfold detectEmotion. rewrite toLowerCase_idempotent. reflexivity.
  - intros a b H. unfold detectEmotion. rewrite H. reflexivity.
Qed.

Lemma detectEmotion_ignores_case_witness :
  detectEmotion "WOW, Really" = detectEmotion "wow, really".
Proof.
  apply (proj2 detectEmotion_ignores_case). reflexivity.
Defined.

(** X4.  The alternative [really\?] ends in a character that is not a
    word character, so the [\b] after it asks for a word character next:
    [really?] is found only when a letter, digit or underscore follows the
    question mark at once, never at the end of the text or before a
    space. *)
Theorem really_needs_a_word_character_after (s : string) :
  occursAsWord "really?" s ->
  exists pre c post,
    s = (pre ++ "really?" ++ String c post)%string /\ isWordChar c = true.
Proof.
  intros [pre [post [Hs [_ Hb]]]].
  rewrite lastChar_app in Hb. simpl in Hb. unfold wordBoundary in Hb.
  destruct post as [|c post]; simpl in Hb; [discriminate|].
  exists pre, c, post. split; [assumption|].
  change (isWord (Some "?"%char)) with false in Hb. simpl in Hb. assumption.
Qed.

Lemma really_needs_a_word_character_after_witness :
  exists pre c post,
    "oh really?yes"%string = (pre ++ "really?" ++ String c post)%string
    /\ isWordChar c = true.
Proof.
  apply (really_needs_a_word_character_after "oh really?yes").
  apply occursAsWord_test. reflexivity.
Defined.

(** ** Strings and renders *)

Lemma append_nil_r (s : string) : (s ++ "")%string = s.
Proof. induction s as [|c s IH]; simpl; [reflexivity | rewrite IH; reflexivity]. Qed.

Lemma append_assoc (a b c : string) : ((a ++ b) ++ c)%string = (a ++ (b ++ c))%string.
Proof. induction a as [|x a IH]; simpl; [reflexivity | rewrite IH; reflexivity]. Qed.

Lemma append_fixed (a t : string) : (a ++ t)%string = a -> t = ""%string.
Proof.
  induction a as [|x a IH]; simpl; [auto|]. intros H. inversion H. auto.
Qed.

Lemma truthy_append_r (a t : string) : truthy t = true -> truthy (a ++ t)%string = true.
Proof. destruct a; simpl; auto. Qed.

Lemma Emotion_eqb_eq (a b : Emotion) : Emotion_eqb a b = true <-> a = b.
Proof. destruct a, b; simpl; split; intros H; congruence. Qed.

(** A render leaves the state alone or sets the emotion to a
    classification of the output buffer that is not [default]. *)
Lemma render_cases (b : string) (w : World) :
  render b w = w
  \/ (render b w = setEmotion (detectEmotion (currentOutput w)) w
      /\ detectEmotion (currentOutput w) <> default).
Proof.
  unfold render, emotionEffect.
  destruct (String.eqb b (currentOutput w)); [left; reflexivity|].
  destruct (truthy (currentOutput w)); [|left; reflexivity].
  destruct (Emotion_eqb (detectEmotion (currentOutput w)) default) eqn:E;
    [left; reflexivity|].
  right. split; [reflexivity|]. intros H. apply Emotion_eqb_eq in H. congruence.
Qed.

Ltac render_field :=
  match goal with
  | |- context [render ?b ?w] =>
      let H := fresh in
      destruct (render_cases b w) as [H | [H _]]; rewrite H; try reflexivity
  end.

Lemma render_messages (b : string) (w : World) : messages (render b w) = messages w.
Proof. render_field. Qed.
Lemma render_currentInput (b : string) (w : World) :
  currentInput (render b w) = currentInput w.
Proof. render_field. Qed.
Lemma render_currentOutput (b : string) (w : World) :
  currentOutput (render b w) = currentOutput w.
Proof. render_field. Qed.
Lemma render_status (b : string) (w : World) : status (render b w) = status w.
Proof. render_field. Qed.
Lemma render_sessionRef (b : string) (w : World) : sessionRef (render b w) = sessionRef w.
Proof. render_field. Qed.
Lemma render_isSpeaking (b : string) (w : World) : isSpeaking (render b w) = isSpeaking w.
Proof. render_field. Qed.
Lemma render_sourcesRef (b : string) (w : World) : sourcesRef (render b w) = sourcesRef w.
Proof. render_field. Qed.
Lemma render_stopped (b : string) (w : World) : stopped (render b w) = stopped w.
Proof. render_field. Qed.
Lemma render_realtimeInput (b : string) (w : World) :
  realtimeInput (render b w) = realtimeInput w.
Proof. render_field. Qed.
Lemma render_clientContent (b : string) (w : World) :
  clientContent (render b w) = clientContent w.
Proof. render_field. Qed.
Lemma render_textValue (b : string) (w : World) : textValue (render b w) = textValue w.
Proof. render_field. Qed.

(** Every handler unfolded, and every test of a handler split. *)
Ltac split_tests :=
  repeat match goal with
         | |- context [if ?c then _ else _] =>
             lazymatch c with
             | context [if _ then _ else _] => fail
             | context [match _ with _ => _ end] => fail
             | _ => let E := fresh "E" in destruct c eqn:E
             end
         | |- context [match ?c with Some _ => _ | None => _ end] =>
             lazymatch c with
             | context [if _ then _ else _] => fail
             | context [match _ with _ => _ end] => fail
             | _ => let E := fresh "E" in destruct c eqn:E
             end
         end.

Ltac tidy_options :=
  repeat match goal with
         | H : Some _ = Some _ |- _ => inversion H; clear H; subst
         | H : Some _ = None |- _ => discriminate H
         | H : None = Some _ |- _ => discriminate H
         end.

Ltac reduce_fields :=
  cbn -[Qmax Qplus trim detectEmotion encode bufferBytes duration round64] in *.

Ltac open_handlers :=
  unfold onmessageHead, onmessageTail, appendTranscription, flushTurn, audioArrives,
    audioDecoded, interrupt, onended, decayFires, onaudioprocess, handleSendText,
    stopSession, sendRealtimeInput, sendClientContent, close, withSession,
    hasSession, orKeep;
  reduce_fields; split_tests; tidy_options; reduce_fields;
  split_tests; tidy_options; reduce_fields.

(** ** The emotion between turns *)

Lemma handle_emotion (ev : Event) (w : World) :
  (forall due, ev <> DecayDue due) -> ev <> StopClicked ->
  emotion (handle ev w) = emotion w.
Proof.
  intros Hd Hs. destruct ev; cbn [handle]; try reflexivity;
    try (open_handlers; reflexivity || congruence).
Qed.

(** X5.  Only the decay callback and End Session bring the emotion back
    to [default]: across any other task an emotion that is set stays set,
    it is kept or replaced by another classification. *)
Theorem emotion_survives_other_tasks (w : World) (ev : Event) :
  emotion w <> default ->
  (forall due, ev <> DecayDue due) -> ev <> StopClicked ->
  emotion (step w ev) <> default.
Proof.
  intros He Hd Hs. unfold step.
  destruct (render_cases (currentOutput w) (handle ev w)) as [H | [H Hne]]; rewrite H.
  - rewrite handle_emotion by assumption. assumption.
  - exact Hne.
Qed.

Lemma emotion_survives_other_tasks_witness :
  emotion (step (setEmotion joy initialWorld)
                (MessageArrived firstSession (outputFragment "hm") 0 0)) <> default.
Proof.
  apply (emotion_survives_other_tasks (setEmotion joy initialWorld)).
  - discriminate.
  - intros due. discriminate.
  - discriminate.
Defined.

(** X6.  An output fragment that is not empty is appended to the output
    buffer, and the emotion becomes the classification of the whole
    buffer, fragment included, unless that classification is [default]:
    then the emotion is left as it was. *)
Theorem output_fragment_reclassifies (s : Session) (t : string) (now : Z) (clock : Q)
    (w : World) :
  t <> ""%string ->
  currentOutput (step w (MessageArrived s (outputFragment t) now clock))
  = (currentOutput w ++ t)%string
  /\ emotion (step w (MessageArrived s (outputFragment t) now clock))
     = (if Emotion_eqb (detectEmotion (currentOutput w ++ t)) default
        then emotion w
        else detectEmotion (currentOutput w ++ t)).
Proof.
  intros Ht. unfold step. cbn [handle]. unfold onmessageHead, outputFragment.
  cbn [appendTranscription outputTranscription turnComplete hasAudio inlineData interrupted
       appended transcriptionText].
  unfold render. cbn [currentOutput setCurrentOutput].
  destruct (String.eqb_spec (currentOutput w) (currentOutput w ++ t)) as [E|E].
  - exfalso. apply Ht. apply (append_fixed (currentOutput w)). congruence.
  - unfold emotionEffect. cbn [currentOutput setCurrentOutput].
    rewrite truthy_append_r by (destruct t; [congruence | reflexivity]).
    destruct (Emotion_eqb (detectEmotion (currentOutput w ++ t)) default);
      split; reflexivity.
Qed.

Lemma output_fragment_reclassifies_witness :
  currentOutput (step (setCurrentOutput "I am so " initialWorld)
                      (MessageArrived firstSession (outputFragment "happy") 0 0))
  = ("I am so " ++ "happy")%string
  /\ emotion (step (setCurrentOutput "I am so " initialWorld)
                   (MessageArrived firstSession (outputFragment "happy") 0 0))
     = (if Emotion_eqb (detectEmotion ("I am so " ++ "happy")) default
        then emotion (setCurrentOutput "I am so " initialWorld)
        else detectEmotion ("I am so " ++ "happy")).
Proof.
  apply (output_fragment_reclassifies firstSession "happy" 0 0
           (setCurrentOutput "I am so " initialWorld)).
  discriminate.
Defined.

(** ** Accumulation *)

Lemma step_accumulates (w : World) (ev : Event) :
  completesTurn ev = false ->
  currentInput (step w ev) = (currentInput w ++ heardBy ev)%string
  /\ currentOutput (step w ev) = (currentOutput w ++ saidBy ev)%string.
Proof.
  intros Hc. unfold step. rewrite render_currentInput, render_currentOutput.
  destruct ev; cbn [handle heardBy saidBy]; rewrite ?append_nil_r;
    try (split; reflexivity);
    try (open_handlers; split; reflexivity).
  simpl in Hc. unfold onmessageHead. rewrite Hc. unfold appendTranscription.
  destruct (outputTranscription m), (inputTranscription m), (hasAudio m), (interrupted m);
    cbn; rewrite ?append_nil_r; split; reflexivity.
Qed.

(** X7.  Until a turn completes, the two buffers grow by the fragments
    received, each stream in its order of arrival, however the two streams
    and the other tasks interleave; of a message that carries both an
    output and an input fragment only the output fragment is kept. *)
Theorem fragments_accumulate (evs : list Event) : forall w,
  forallb (fun ev => negb (completesTurn ev)) evs = true ->
  currentInput (run evs w) = (currentInput w ++ concatAll (map heardBy evs))%string
  /\ currentOutput (run evs w) = (currentOutput w ++ concatAll (map saidBy evs))%string.
Proof.
  induction evs as [|ev evs IH]; intros w H.
  - simpl. rewrite !append_nil_r. split; reflexivity.
  - simpl in H. apply andb_prop in H. destruct H as [Hev Hevs].
    apply negb_true_iff in Hev.
    destruct (step_accumulates w ev Hev) as [H1 H2].
    destruct (IH (step w ev) Hevs) as [H3 H4].
    cbn [run fold_left map concatAll]. fold (run evs (step w ev)).
    rewrite H3, H4, H1, H2, !append_assoc. split; reflexivity.
Qed.

Lemma fragments_accumulate_witness :
  currentInput
    (run [MessageArrived firstSession (inputFragment "Hel") 10 0;
          MessageArrived firstSession (outputFragment "Hi ") 20 0;
          MessageArrived firstSession
            (mkLiveServerMessage (Some (mkTranscription (Some "there")))
               (Some (mkTranscription (Some "lo"))) false None false) 30 0]
         initialWorld) = "Hel"%string
  /\ currentOutput
       (run [MessageArrived firstSession (inputFragment "Hel") 10 0;
             MessageArrived firstSession (outputFragment "Hi ") 20 0;
             MessageArrived firstSession
               (mkLiveServerMessage (Some (mkTranscription (Some "there")))
               (Some (mkTranscription (Some "lo"))) false None false) 30 0]
            initialWorld) = "Hi there"%string.
Proof.
  apply (fragments_accumulate
           [MessageArrived firstSession (inputFragment "Hel") 10 0;
            MessageArrived firstSession (outputFragment "Hi ") 20 0;
            MessageArrived firstSession
              (mkLiveServerMessage (Some (mkTranscription (Some "there")))
               (Some (mkTranscription (Some "lo"))) false None false) 30 0]
           initialWorld).
  reflexivity.
Defined.

Lemma render_of_empty (b : string) (w : World) : currentOutput w = ""%string -> render b w = w.
Proof.
  intros H. unfold render, emotionEffect. rewrite H.
  destruct (String.eqb b ""); reflexivity.
Qed.

(** X8.  A message flagged [turnComplete] leaves both buffers empty, a
    fragment carried by the same message included; it appends to the log
    what the closure of its session holds, the user entry before the model
    entry, adds one decay to the pending timers and leaves the emotion
    alone. *)
Theorem turn_complete_clears_buffers (s : Session) (m : LiveServerMessage) (now : Z)
    (clock : Q) (w : World) :
  turnComplete m = true ->
  currentInput (step w (MessageArrived s m now clock)) = ""%string
  /\ currentOutput (step w (MessageArrived s m now clock)) = ""%string
  /\ messages (step w (MessageArrived s m now clock))
     = messages w
       ++ (if truthy (closureInput s) then [mkMessage user (closureInput s) now] else [])
       ++ (if truthy (closureOutput s) then [mkMessage model (closureOutput s) now] else [])
  /\ timers (step w (MessageArrived s m now clock)) = timers w ++ [now + 2000]
  /\ emotion (step w (MessageArrived s m now clock)) = emotion w.
Proof.
  intros Ht. unfold step. cbn [handle].
  assert (E : currentOutput (onmessageHead s m now clock w) = ""%string).
  { unfold onmessageHead. rewrite Ht.
    destruct (hasAudio m), (interrupted m); reflexivity. }
  rewrite (render_of_empty _ _ E).
  unfold onmessageHead, appendTranscription. rewrite Ht.
  destruct (outputTranscription m), (inputTranscription m), (hasAudio m), (interrupted m);
    repeat split; reflexivity.
Qed.

Lemma turn_complete_clears_buffers_witness :
  currentInput
    (step (setCurrentInput "pending" initialWorld)
          (MessageArrived (mkSession "a" "b")
             (mkLiveServerMessage (Some (mkTranscription (Some "late"))) None true None
              false) 7 0))
  = ""%string.
Proof.
  apply (turn_complete_clears_buffers (mkSession "a" "b")
           (mkLiveServerMessage (Some (mkTranscription (Some "late"))) None true None
              false) 7 0
           (setCurrentInput "pending" initialWorld)).
  reflexivity.
Defined.

(** ** The Message log *)

Lemma step_messages (w : World) (ev : Event) :
  exists more,
    messages (step w ev) = messages w ++ more
    /\ (completesTurn ev = false -> sendsText ev = false -> more = []).
Proof.
  unfold step. rewrite render_messages.
  destruct ev; cbn [handle completesTurn sendsText];
    try (exists []; rewrite app_nil_r; split; [reflexivity | auto]);
    try (exists []; rewrite app_nil_r; split; [open_handlers; reflexivity | auto]).
  - (* MessageArrived *)
    exists (if turnComplete m
            then (if truthy (closureInput s) then [mkMessage user (closureInput s) now]
                  else [])
                 ++ (if truthy (closureOutput s)
                     then [mkMessage model (closureOutput s) now] else [])
            else []).
    split.
    + unfold onmessageHead, appendTranscription.
      destruct (outputTranscription m), (inputTranscription m), (turnComplete m),
        (hasAudio m), (interrupted m); cbn; rewrite ?app_nil_r; reflexivity.
    + intros H _. rewrite H. reflexivity.
  - (* SendClicked *)
    unfold handleSendText, sendClientContent, withSession, hasSession.
    destruct (sessionRef w) eqn:Es; cbn.
    + rewrite orb_false_r. destruct (negb (truthy (trim (textValue w)))).
      * exists []. rewrite app_nil_r. split; [reflexivity | discriminate].
      * rewrite Es. cbn. eexists. split; [reflexivity | discriminate].
    + rewrite orb_true_r. exists []. rewrite app_nil_r. split; [reflexivity | discriminate].
Qed.

(** X9.  The Message log is append-only: whatever tasks run, the log
    before is a prefix of the log after; and only a turn-complete signal
    or a text send adds to it. *)
Theorem messages_append_only (evs : list Event) : forall w,
  exists more,
    messages (run evs w) = messages w ++ more
    /\ (forallb (fun ev => negb (completesTurn ev) && negb (sendsText ev)) evs = true ->
        more = []).
Proof.
  induction evs as [|ev evs IH]; intros w.
  - exists []. simpl. rewrite app_nil_r. auto.
  - destruct (step_messages w ev) as [m1 [H1 H1']].
    destruct (IH (step w ev)) as [m2 [H2 H2']].
    exists (m1 ++ m2). cbn [run fold_left]. fold (run evs (step w ev)).
    rewrite H2, H1, app_assoc. split; [reflexivity|].
    intros H. simpl in H. apply andb_prop in H. destruct H as [Hev Hevs].
    apply andb_prop in Hev. destruct Hev as [Hc Hs].
    apply negb_true_iff in Hc. apply negb_true_iff in Hs.
    rewrite (H1' Hc Hs), (H2' Hevs). reflexivity.
Qed.

Lemma messages_append_only_witness :
  exists more,
    messages (run [MessageArrived firstSession (outputFragment "Hi") 0 0; StopClicked]
                  initialWorld)
    = messages initialWorld ++ more
    /\ more = [].
Proof.
  destruct (messages_append_only
              [MessageArrived firstSession (outputFragment "Hi") 0 0; StopClicked]
              initialWorld) as [more [H1 H2]].
  exists more. split; [exact H1 | apply H2; reflexivity].
Defined.

(** ** Natural completion *)

Lemma sourcesRef_onended (src : SourceId) (w : World) :
  sourcesRef (onended src w) = setDelete src (sourcesRef w).
Proof. unfold onended. cbn. destruct (Nat.eqb _ 0); reflexivity. Qed.

Lemma onended_empty_silent (src : SourceId) (w : World) :
  sourcesRef (onended src w) = [] -> isSpeaking (onended src w) = false.
Proof.
  rewrite sourcesRef_onended. unfold onended. cbn. intros H. rewrite H. reflexivity.
Qed.

Lemma In_setDelete (x y : SourceId) (s : list SourceId) :
  In y (setDelete x s) <-> In y s /\ y <> x.
Proof.
  unfold setDelete. rewrite filter_In. split; intros [H1 H2]; split; try assumption.
  - intros ->. rewrite Nat.eqb_refl in H2. discriminate.
  - apply negb_true_iff. apply Nat.eqb_neq. congruence.
Qed.

Lemma step_SourceEnded (w : World) (src : SourceId) :
  sourcesRef (step w (SourceEnded src)) = setDelete src (sourcesRef w)
  /\ isSpeaking (step w (SourceEnded src)) = isSpeaking (onended src w).
Proof.
  unfold step. rewrite render_sourcesRef, render_isSpeaking. cbn [handle].
  split; [apply sourcesRef_onended | reflexivity].
Qed.

Lemma ended_sources_leave (srcs : list SourceId) : forall w x,
  In x (sourcesRef (run (map SourceEnded srcs) w)) -> In x (sourcesRef w) /\ ~ In x srcs.
Proof.
  induction srcs as [|s srcs IH]; intros w x H.
  - simpl in H. auto.
  - simpl in H. apply IH in H. destruct H as [H1 H2].
    destruct (step_SourceEnded w s) as [E _]. rewrite E in H1.
    apply In_setDelete in H1. destruct H1 as [H1 H3].
    split; [assumption|]. simpl. intros [->|H4]; auto.
Qed.

(** X10.  When every source of the active set has fired [ended], in any
    order and whatever other sources fire too, the active set is empty and
    [isSpeaking] is false. *)
Theorem all_sources_ended_silence (srcs : list SourceId) (w : World) :
  srcs <> [] -> incl (sourcesRef w) srcs ->
  sourcesRef (run (map SourceEnded srcs) w) = []
  /\ isSpeaking (run (map SourceEnded srcs) w) = false.
Proof.
  intros Hne Hincl.
  assert (E : sourcesRef (run (map SourceEnded srcs) w) = []).
  { destruct (sourcesRef (run (map SourceEnded srcs) w)) as [|x l] eqn:E; [reflexivity|].
    exfalso. destruct (ended_sources_leave srcs w x) as [H1 H2].
    - rewrite E. left. reflexivity.
    - apply H2. apply Hincl. assumption. }
  split; [assumption|].
  destruct (exists_last Hne) as [srcs' [s Hs]]. subst srcs.
  rewrite map_app in *. unfold run in *. rewrite fold_left_app in *. cbn [map fold_left] in *.
  destruct (step_SourceEnded (fold_left step (map SourceEnded srcs') w) s) as [E1 E2].
  rewrite E2. apply onended_empty_silent. rewrite sourcesRef_onended, <- E1. assumption.
Qed.

Lemma all_sources_ended_silence_witness :
  sourcesRef (run (map SourceEnded [1%nat; 0%nat])
                  (schedule 1 (mkBuffer 100 24000)
                     (schedule 0 (mkBuffer 100 24000) initialWorld))) = []
  /\ isSpeaking (run (map SourceEnded [1%nat; 0%nat])
                     (schedule 1 (mkBuffer 100 24000)
                        (schedule 0 (mkBuffer 100 24000) initialWorld))) = false.
Proof.
  apply (all_sources_ended_silence [1%nat; 0%nat]).
  - discriminate.
  - intros x H. simpl in H. simpl. tauto.
Defined.

(** ** The speaking flag along whole tasks *)

Lemma speakingAgrees_ext (w w' : World) :
  sourcesRef w' = sourcesRef w -> isSpeaking w' = isSpeaking w ->
  speakingAgrees w -> speakingAgrees w'.
Proof. unfold speakingAgrees. intros -> ->. auto. Qed.

Lemma speakingAgrees_render (b : string) (w : World) :
  speakingAgrees w -> speakingAgrees (render b w).
Proof.
  apply speakingAgrees_ext; [apply render_sourcesRef | apply render_isSpeaking].
Qed.

Lemma onmessage_without_audio (s : Session) (m : LiveServerMessage) (now : Z)
    (clock : Q) (audioBuffer : AudioBuffer) (w : World) :
  hasAudio m = false ->
  onmessage s m now clock audioBuffer w = onmessageHead s m now clock w.
Proof. intros H. unfold onmessage. rewrite H. reflexivity. Qed.

Lemma speakingAgrees_perform (w : World) (t : Task) :
  keepsFlag t = true -> speakingAgrees w -> speakingAgrees (perform w t).
Proof.
  intros Hk H. destruct t as [s m now clock audioBuffer | ev]; cbn [perform].
  - apply speakingAgrees_render, speakingAgrees_onmessage. assumption.
  - unfold step. apply speakingAgrees_render.
    destruct ev; cbn [handle]; simpl in Hk; try discriminate;
      try (revert H; apply speakingAgrees_ext; reflexivity).
    + apply negb_true_iff in Hk.
      rewrite <- (onmessage_without_audio s m now clock (mkBuffer 0 1) w Hk).
      apply speakingAgrees_onmessage. assumption.
    + apply speakingAgrees_onended. assumption.
    + revert H. apply speakingAgrees_ext; unfold decayFires;
        destruct (existsb _ _); reflexivity.
    + revert H. apply speakingAgrees_ext; open_handlers; reflexivity.
    + destruct (handleSendText now w) as [w'|] eqn:E; cbn [orKeep]; [|assumption].
      apply (speakingAgrees_handleSendText now w w'); assumption.
Qed.

(** X11.  When the continuation of every audio message runs before any
    other task, and End Session is not clicked, the active set is empty
    exactly when [isSpeaking] is false after every task: messages,
    [ended] events, text sends, timer callbacks, captured frames and
    connection events all keep the two in step. *)
Theorem speaking_flag_follows_active_set (ts : list Task) : forall w,
  speakingAgrees w -> forallb keepsFlag ts = true ->
  speakingAgrees (fold_left perform ts w).
Proof.
  induction ts as [|t ts IH]; intros w H Hk; [assumption|].
  simpl in Hk. apply andb_prop in Hk. destruct Hk as [Ht Hts].
  simpl. apply IH; [|assumption]. apply speakingAgrees_perform; assumption.
Qed.

Lemma speaking_flag_follows_active_set_witness :
  speakingAgrees
    (fold_left perform
       [Single StartClicked; Single Opened;
        Whole firstSession (audioFragment "AAAA") 10 (1 # 2) (mkBuffer 2400 24000);
        Whole firstSession (audioFragment "AAAA") 20 (1 # 2) (mkBuffer 2400 24000);
        Single (SourceEnded 0%nat); Single (SendClicked 30);
        Single (SourceEnded 1%nat)]
       initialWorld).
Proof.
  apply speaking_flag_follows_active_set.
  - unfold speakingAgrees. simpl. tauto.
  - reflexivity.
Defined.

(** ** The bookkeeping of sources *)

Lemma sourcesTidy_ext (w w' : World) :
  sourcesRef w' = sourcesRef w -> stopped w' = stopped w -> started w' = started w ->
  sourcesTidy w -> sourcesTidy w'.
Proof. unfold sourcesTidy, startedSources. intros -> -> ->. auto. Qed.

Lemma sourcesTidy_interrupt (w : World) : sourcesTidy w -> sourcesTidy (interrupt w).
Proof.
  unfold sourcesTidy, startedSources. cbn.
  intros [Ha [Hs [Hd [Hb Hseq]]]]. repeat split.
  - constructor.
  - apply NoDup_app; try assumption. intros x Hx Hx'. exact (Hd x Hx' Hx).
  - intros src [].
  - intros src [[]|H]. apply in_app_or in H. apply Hb. tauto.
  - assumption.
Qed.

Lemma setAdd_fresh (x : SourceId) (s : list SourceId) : ~ In x s -> setAdd x s = s ++ [x].
Proof.
  intros H. unfold setAdd. destruct (existsb (Nat.eqb x) s) eqn:E; [|reflexivity].
  exfalso. apply existsb_exists in E. destruct E as [y [Hy Hxy]].
  apply Nat.eqb_eq in Hxy. subst. auto.
Qed.

Lemma sourcesTidy_audioDecoded (audioBuffer : AudioBuffer) (w : World) :
  sourcesTidy w -> sourcesTidy (audioDecoded audioBuffer w).
Proof.
  unfold sourcesTidy, startedSources. cbn.
  intros [Ha [Hs [Hd [Hb Hseq]]]].
  assert (Hfresh : ~ In (length (started w)) (sourcesRef w)).
  { intros H. assert (length (started w) < length (started w))%nat by (apply Hb; auto). lia. }
  assert (Hfresh' : ~ In (length (started w)) (stopped w)).
  { intros H. assert (length (started w) < length (started w))%nat by (apply Hb; auto). lia. }
  rewrite (setAdd_fresh _ _ Hfresh). rewrite length_app, map_app. cbn.
  repeat split.
  - apply NoDup_app; try assumption.
    + constructor; [intros [] | constructor].
    + intros x Hx [<-|[]]. auto.
  - assumption.
  - intros src H. apply in_app_or in H. destruct H as [H|[<-|[]]]; auto.
  - intros src [H|H].
    + apply in_app_or in H. destruct H as [H|[<-|[]]]; [|lia].
      assert (src < length (started w))%nat by (apply Hb; auto). lia.
    + assert (src < length (started w))%nat by (apply Hb; auto). lia.
  - rewrite Hseq. replace (length (started w) + 1)%nat with (S (length (started w))) by lia.
    rewrite seq_S. reflexivity.
Qed.

Lemma NoDup_setDelete (x : SourceId) (s : list SourceId) : NoDup s -> NoDup (setDelete x s).
Proof. apply NoDup_filter. Qed.

Lemma sourcesTidy_onended (src : SourceId) (w : World) :
  sourcesTidy w -> sourcesTidy (onended src w).
Proof.
  unfold sourcesTidy, startedSources. rewrite sourcesRef_onended.
  replace (stopped (onended src w)) with (stopped w)
    by (unfold onended; destruct (Nat.eqb _ 0); reflexivity).
  replace (started (onended src w)) with (started w)
    by (unfold onended; destruct (Nat.eqb _ 0); reflexivity).
  intros [Ha [Hs [Hd [Hb Hseq]]]]. repeat split; try assumption.
  - apply NoDup_setDelete. assumption.
  - intros x Hx. apply In_setDelete in Hx. apply Hd. tauto.
  - intros x [Hx|Hx]; apply Hb; [left | right; assumption].
    apply In_setDelete in Hx. tauto.
Qed.

Lemma sourcesTidy_render (b : string) (w : World) : sourcesTidy w -> sourcesTidy (render b w).
Proof.
  apply sourcesTidy_ext; [apply render_sourcesRef | apply render_stopped | apply render_started].
Qed.

Lemma sourcesTidy_step (w : World) (ev : Event) : sourcesTidy w -> sourcesTidy (step w ev).
Proof.
  intros H. unfold step. apply sourcesTidy_render.
  destruct ev; cbn [handle];
    try (revert H; apply sourcesTidy_ext; reflexivity).
  - (* MessageArrived *)
    unfold onmessageHead.
    set (w2 := if turnComplete m then flushTurn s now (appendTranscription m w)
               else appendTranscription m w).
    assert (H2 : sourcesTidy w2).
    { revert H. apply sourcesTidy_ext; unfold w2, appendTranscription;
        destruct (turnComplete m), (outputTranscription m), (inputTranscription m);
        reflexivity. }
    destruct (hasAudio m).
    + revert H2. apply sourcesTidy_ext; reflexivity.
    + destruct (interrupted m); [apply sourcesTidy_interrupt|]; assumption.
  - (* AudioDecoded *)
    unfold onmessageTail. apply (sourcesTidy_audioDecoded audioBuffer) in H.
    destruct (interrupted m); [apply sourcesTidy_interrupt|]; assumption.
  - (* SourceEnded *)
    apply sourcesTidy_onended. assumption.
  - (* DecayDue *)
    revert H. apply sourcesTidy_ext; unfold decayFires; destruct (existsb _ _); reflexivity.
  - (* FrameCaptured *)
    revert H. apply sourcesTidy_ext; open_handlers; reflexivity.
  - (* SendClicked *)
    unfold handleSendText, sendClientContent, withSession.
    destruct (negb (truthy (trim (textValue w))) || negb (hasSession w));
      cbn [orKeep]; [assumption|].
    cbn [sessionRef interrupt setIsSpeaking setNextStartTime setSources setStopped].
    destruct (sessionRef w); cbn [orKeep]; [|assumption].
    apply sourcesTidy_interrupt in H. revert H. apply sourcesTidy_ext; reflexivity.
  - (* StopClicked *)
    revert H. apply sourcesTidy_ext; open_handlers; reflexivity.
Qed.

Lemma sourcesTidy_run (evs : list Event) : forall w,
  sourcesTidy w -> sourcesTidy (run evs w).
Proof.
  induction evs as [|ev evs IH]; intros w H; [assumption|].
  simpl. apply IH. apply sourcesTidy_step. assumption.
Qed.

(** X12.  Whatever tasks have run since the application started, in any
    interleaving: the active set holds no source twice, every source in it
    has been started and has not received [stop()], and no source has
    received [stop()] twice. *)
Theorem sources_are_tracked (evs : list Event) :
  NoDup (sourcesRef (run evs initialWorld))
  /\ NoDup (stopped (run evs initialWorld))
  /\ forall src,
       In src (sourcesRef (run evs initialWorld)) ->
       (exists e, In e (started (run evs initialWorld)) /\ source e = src)
       /\ ~ In src (stopped (run evs initialWorld)).
Proof.
  assert (H : sourcesTidy (run evs initialWorld)).
  { apply sourcesTidy_run. unfold sourcesTidy, startedSources. simpl.
    repeat split; try constructor; intros src; tauto. }
  destruct H as [Ha [Hs [Hd [Hb Hseq]]]]. repeat split; try assumption.
  - assert (Hin : In src (startedSources (run evs initialWorld))).
    { rewrite Hseq. apply in_seq. split; [lia|].
      simpl. apply Hb. left. assumption. }
    unfold startedSources in Hin. apply in_map_iff in Hin.
    destruct Hin as [e [He1 He2]]. exists e. auto.
  - apply Hd. assumption.
Qed.

(** ** Text sends *)

(** X13.  A text send that passes its guard stops every active source,
    empties the active set, puts the cursor back to 0 and [isSpeaking] to
    false, sends the pending text as typed, untrimmed, appends it to the
    log as a user message and clears the input; it does not throw. *)
Theorem text_send_interrupts_then_sends (now : Z) (w : World) (s : Session) :
  sessionRef w = Some s -> allWhiteSpace (textValue w) = false ->
  exists w',
    handleSendText now w = Some w'
    /\ stopped w' = stopped w ++ sourcesRef w
    /\ sourcesRef w' = []
    /\ nextStartTimeRef w' = 0%Q
    /\ isSpeaking w' = false
    /\ clientContent w' = clientContent w ++ [textValue w]
    /\ messages w' = messages w ++ [mkMessage user (textValue w) now]
    /\ textValue w' = ""%string
    /\ started w' = started w /\ sessionRef w' = Some s.
Proof.
  intros Hs Hb. unfold handleSendText, sendClientContent, withSession, hasSession.
  rewrite Hs. destruct (trim (textValue w)) eqn:E.
  - apply trim_empty_iff in E. congruence.
  - cbn [truthy negb orb sessionRef interrupt setIsSpeaking setNextStartTime setSources
         setStopped]. rewrite Hs. eexists. split; [reflexivity|]. repeat split.
    cbn. assumption.
Qed.

Lemma text_send_interrupts_then_sends_witness :
  exists w',
    handleSendText 9 (setTextValue " hi " (run opening initialWorld)) = Some w'
    /\ stopped w' = stopped (setTextValue " hi " (run opening initialWorld))
                    ++ sourcesRef (setTextValue " hi " (run opening initialWorld))
    /\ sourcesRef w' = []
    /\ nextStartTimeRef w' = 0%Q
    /\ isSpeaking w' = false
    /\ clientContent w' = clientContent (setTextValue " hi " (run opening initialWorld))
                          ++ [textValue (setTextValue " hi " (run opening initialWorld))]
    /\ messages w' = messages (setTextValue " hi " (run opening initialWorld))
                     ++ [mkMessage user
                           (textValue (setTextValue " hi " (run opening initialWorld))) 9]
    /\ textValue w' = ""%string
    /\ started w' = started (setTextValue " hi " (run opening initialWorld))
    /\ sessionRef w' = Some firstSession.
Proof.
  apply (text_send_interrupts_then_sends 9
           (setTextValue " hi " (run opening initialWorld)) firstSession);
    reflexivity.
Defined.

(** ** A queue ahead of the clock *)





(** ** Audio with an interruption in one message *)

Lemma In_setAdd_self (x : SourceId) (s : list SourceId) : In x (setAdd x s).
Proof.
  unfold setAdd. destruct (existsb (Nat.eqb x) s) eqn:E.
  - apply existsb_exists in E. destruct E as [y [Hy Hxy]].
    apply Nat.eqb_eq in Hxy. subst. assumption.
  - apply in_or_app. right. left. reflexivity.
Qed.

(** X15.  A message that carries audio and is flagged [interrupted] has
    its own buffer started and then stopped by the same handler: the
    source is created and started at the cursor, receives [stop()] with
    all the others, and the handler ends with an empty active set, the
    cursor at 0 and [isSpeaking] false. *)
Theorem interrupted_audio_is_started_then_stopped (s : Session) (m : LiveServerMessage)
    (now : Z) (clock : Q) (audioBuffer : AudioBuffer) (w : World) :
  hasAudio m = true -> interrupted m = true ->
  started (onmessage s m now clock audioBuffer w)
  = started w ++ [mkScheduled (length (started w)) (Qmax (nextStartTimeRef w) clock)
                              (duration audioBuffer)]
  /\ In (length (started w)) (stopped (onmessage s m now clock audioBuffer w))
  /\ sourcesRef (onmessage s m now clock audioBuffer w) = []
  /\ nextStartTimeRef (onmessage s m now clock audioBuffer w) = 0%Q
  /\ isSpeaking (onmessage s m now clock audioBuffer w) = false.
Proof.
  intros Ha Hi. unfold onmessage, onmessageHead, onmessageTail. rewrite Ha, Hi.
  set (w2 := if turnComplete m then flushTurn s now (appendTranscription m w)
             else appendTranscription m w).
  assert (E : started w2 = started w /\ nextStartTimeRef w2 = nextStartTimeRef w).
  { unfold w2, appendTranscription.
    destruct (turnComplete m), (outputTranscription m), (inputTranscription m);
      split; reflexivity. }
  destruct E as [E1 E2]. cbn -[Qmax duration]. rewrite E1, E2.
  repeat split. apply in_or_app. right. apply In_setAdd_self.
Qed.

Lemma interrupted_audio_is_started_then_stopped_witness :
  In (length (started initialWorld))
     (stopped (onmessage firstSession
                 (mkLiveServerMessage None None false (Some "AAAA") true)
                 0 (1 # 2) (mkBuffer 2400 24000) initialWorld)).
Proof.
  apply (interrupted_audio_is_started_then_stopped firstSession
           (mkLiveServerMessage None None false (Some "AAAA") true)
           0 (1 # 2) (mkBuffer 2400 24000) initialWorld); reflexivity.
Defined.

(** ** The volume effect *)

Lemma fold_add_bounds (l : list Z) : forall a,
  Forall is_byte l ->
  a <= fold_left Z.add l a <= a + 255 * Z.of_nat (length l).
Proof.
  induction l as [|x l IH]; intros a H.
  - simpl. lia.
  - inversion H as [|? ? Hx Hl]; subst. specialize (IH (a + x) Hl).
    unfold is_byte in Hx. cbn [fold_left length]. lia.
Qed.

Lemma fold_add_sum (l : list Z) : forall a,
  fold_left Z.add l a = a + fold_right Z.add 0 l.
Proof.
  induction l as [|x l IH]; intros a; simpl; [lia|]. rewrite IH. lia.
Qed.

(** X16.  With the 128 bins of an FFT of 256 points, a frame of [analyze]
    does not throw and changes the volume only; while something is spoken
    the volume is the sum of the bins over 128 * 128, between 0 and
    255/128 (so above 1 when the mean bin exceeds 128), and it is 0 when
    there are no audio contexts or nothing is spoken.  On an empty array
    the unseeded [reduce] throws. *)
Theorem analyze_sets_volume (hasContexts : bool) (dataArray : list Z) (w : World) :
  Forall is_byte dataArray -> length dataArray = 128%nat ->
  (exists v,
     analyze hasContexts dataArray w = Some (setVolume v w)
     /\ (0 <= v)%Q /\ (v <= 255 # 128)%Q
     /\ (hasContexts && isSpeaking w = false -> v = 0%Q)
     /\ (hasContexts && isSpeaking w = true ->
         (v * 16384 == inject_Z (fold_right Z.add 0%Z dataArray))%Q))
  /\ (hasContexts && isSpeaking w = true -> analyze hasContexts [] w = None).
Proof.
  intros Hb Hlen. split.
  - unfold analyze. rewrite Hlen. destruct (hasContexts && isSpeaking w).
    + destruct dataArray as [|a rest]; [discriminate|]. cbn [reduceSum].
      inversion Hb as [|? ? Ha Hrest]; subst.
      pose proof (fold_add_bounds rest a Hrest) as Hsum.
      assert (Hrest' : Z.of_nat (length rest) = 127) by (cbn [length] in Hlen; lia).
      rewrite Hrest' in Hsum.
      assert (Htotal : fold_left Z.add rest a = fold_right Z.add 0 (a :: rest))
        by (cbn [fold_right]; apply fold_add_sum).
      rewrite <- Htotal.
      set (total := fold_left Z.add rest a) in *.
      unfold is_byte in Ha.
      eexists. split; [reflexivity|]. split; [|split; [|split]].
      * apply Qle_shift_div_l; [reflexivity|]. rewrite Qmult_0_l.
        apply Qle_shift_div_l; [reflexivity|]. rewrite Qmult_0_l.
        rewrite <- (Zle_Qle 0). lia.
      * apply Qle_shift_div_r; [reflexivity|].
        apply Qle_shift_div_r; [reflexivity|].
        setoid_replace ((255 # 128) * 128 * inject_Z (Z.of_nat 128))%Q
          with (inject_Z (255 * 128))%Q by reflexivity.
        rewrite <- Zle_Qle. lia.
      * discriminate.
      * intros _. unfold Qeq, Qdiv, Qmult, Qinv, inject_Z. simpl. lia.
    + exists 0%Q. split; [reflexivity|]. split; [discriminate|]. split; [discriminate|].
      split; [reflexivity | discriminate].
  - intros H. unfold analyze. rewrite H. reflexivity.
Qed.

Lemma analyze_sets_volume_witness :
  exists v,
    analyze true (List.repeat 192 128) (setIsSpeaking true initialWorld)
    = Some (setVolume v (setIsSpeaking true initialWorld))
    /\ (0 <= v)%Q /\ (v <= 255 # 128)%Q
    /\ (true && isSpeaking (setIsSpeaking true initialWorld) = false -> v = 0%Q)
    /\ (true && isSpeaking (setIsSpeaking true initialWorld) = true ->
        (v * 16384 == inject_Z (fold_right Z.add 0%Z (List.repeat 192%Z 128)))%Q).
Proof.
  apply (proj1 (analyze_sets_volume true (List.repeat 192 128)
                  (setIsSpeaking true initialWorld)
                  ltac:(apply Forall_forall; intros x Hx;
                        apply repeat_spec in Hx; subst; unfold is_byte; lia)
                  ltac:(apply repeat_length))).
Defined.

(** ** Connection state *)

Lemma handle_status (ev : Event) (w : World) :
  lifecycle ev = false -> status (handle ev w) = status w.
Proof.
  intros H. destruct ev; simpl in H; try discriminate; cbn [handle];
    try reflexivity; open_handlers; reflexivity.
Qed.

(** X17.  Only the events of the connection's life cycle change the
    connection status: messages, decoded audio, ended sources, timers,
    captured frames, typing and text sends leave it as it is.  And what a
    life-cycle event sets it to does not depend on the state it finds. *)
Theorem status_follows_lifecycle (ev : Event) :
  (lifecycle ev = false -> forall w, status (step w ev) = status w)
  /\ (lifecycle ev = true ->
      forall w1 w2, status (step w1 ev) = status (step w2 ev)).
Proof.
  split.
  - intros H w. unfold step. rewrite render_status. apply handle_status. assumption.
  - intros H w1 w2. unfold step. rewrite !render_status.
    destruct ev; simpl in H; try discriminate; cbn [handle]; try reflexivity.
    unfold stopSession, close, withSession, hasSession.
    destruct (sessionRef w1), (sessionRef w2); reflexivity.
Qed.

Lemma status_follows_lifecycle_witness :
  status (step (run opening initialWorld) (SendClicked 3))
  = status (run opening initialWorld)
  /\ status (step initialWorld ChannelError)
     = status (step (run opening initialWorld) ChannelError).
Proof.
  split.
  - apply (proj1 (status_follows_lifecycle (SendClicked 3))). reflexivity.
  - apply (proj2 (status_follows_lifecycle ChannelError)). reflexivity.
Defined.

(** ** Captured frames *)

Lemma handle_realtimeInput (ev : Event) (w : World) :
  (forall inputData, ev <> FrameCaptured inputData) ->
  realtimeInput (handle ev w) = realtimeInput w.
Proof.
  intros H. destruct ev; cbn [handle]; try reflexivity;
    try (open_handlers; reflexivity).
  exfalso. apply (H inputData). reflexivity.
Qed.

(** X18.  A frame captured while no session is held is dropped: the
    state is unchanged, nothing is queued for later.  With a session held
    the frame is sent as exactly one chunk and nothing else changes.  No
    other task sends audio. *)
Theorem frames_are_sent_or_dropped (inputData : list Q) (w : World) :
  (sessionRef w = None -> step w (FrameCaptured inputData) = w)
  /\ (sessionRef w <> None ->
      step w (FrameCaptured inputData)
      = setRealtimeInput
          (realtimeInput w ++ [encode (bufferBytes (map sampleToInt16 inputData))]) w)
  /\ (forall ev, (forall frame, ev <> FrameCaptured frame) ->
                 realtimeInput (step w ev) = realtimeInput w).
Proof.
  assert (R : forall w', currentOutput w' = currentOutput w ->
                         render (currentOutput w) w' = w').
  { intros w' E. unfold render. rewrite E, String.eqb_refl. reflexivity. }
  split; [|split].
  - intros H. unfold step. cbn [handle]. unfold onaudioprocess, hasSession.
    rewrite H. cbn [orKeep]. apply R. reflexivity.
  - intros H. unfold step. cbn [handle].
    unfold onaudioprocess, sendRealtimeInput, withSession, hasSession.
    destruct (sessionRef w); [|congruence]. cbn [orKeep]. apply R. reflexivity.
  - intros ev H. unfold step. rewrite render_realtimeInput.
    apply handle_realtimeInput. assumption.
Qed.

Lemma frames_are_sent_or_dropped_witness :
  step initialWorld (FrameCaptured [0%Q; (1 # 2)%Q]) = initialWorld
  /\ realtimeInput (step (run opening initialWorld) (SendClicked 3))
     = realtimeInput (run opening initialWorld).
Proof.
  split.
  - apply (proj1 (frames_are_sent_or_dropped [0%Q; (1 # 2)%Q] initialWorld)). reflexivity.
  - apply (proj2 (proj2 (frames_are_sent_or_dropped [] (run opening initialWorld)))).
    intros frame. discriminate.
Defined.

(** ** The transcript shown *)

Lemma conversationDisplay_quiet (msgs : list Message) :
  conversationDisplay msgs "" "" = map logBubble msgs.
Proof. unfold conversationDisplay. simpl. apply app_nil_r. Qed.

(** X19.  The transcript shows the log first, in its order, one bubble
    per message, labelled You for the user and Maya for the model, and
    after it at most two bubbles in progress; right after a turn-complete
    signal it shows the log only. *)
Theorem view_shows_log_then_fragments (w : World) :
  (exists pending,
     view w = map logBubble (messages w) ++ pending
     /\ (length pending <= 2)%nat
     /\ (pending = [] <-> currentInput w = ""%string /\ currentOutput w = ""%string))
  /\ (forall s m now clock,
        turnComplete m = true ->
        view (step w (MessageArrived s m now clock))
        = map logBubble (messages (step w (MessageArrived s m now clock)))).
Proof.
  split.
  - unfold view, conversationDisplay. eexists. split; [reflexivity|].
    destruct (currentInput w), (currentOutput w); simpl; split; try lia;
      split; try discriminate; try (intros [H1 H2]; discriminate); auto.
  - intros s m now clock Ht. unfold view.
    assert (E : currentOutput (onmessageHead s m now clock w) = ""%string
                /\ currentInput (onmessageHead s m now clock w) = ""%string).
    { unfold onmessageHead. rewrite Ht.
      destruct (hasAudio m), (interrupted m); split; reflexivity. }
    destruct E as [E1 E2]. unfold step. cbn [handle].
    rewrite (render_of_empty _ _ E1), E1, E2. apply conversationDisplay_quiet.
Qed.

Lemma view_shows_log_then_fragments_witness :
  view (step (setCurrentOutput "Hi" initialWorld)
             (MessageArrived (mkSession "a" "b") turnCompleteSignal 5 0))
  = map logBubble
      (messages (step (setCurrentOutput "Hi" initialWorld)
                      (MessageArrived (mkSession "a" "b") turnCompleteSignal 5 0))).
Proof.
  apply (proj2 (view_shows_log_then_fragments (setCurrentOutput "Hi" initialWorld))).
  reflexivity.
Defined.

(** ** [ended] events as operations *)

Lemma setDelete_comm (a b : SourceId) (s : list SourceId) :
  setDelete a (setDelete b s) = setDelete b (setDelete a s).
Proof.
  unfold setDelete. induction s as [|x s IH]; simpl; [reflexivity|].
  destruct (Nat.eqb b x) eqn:Eb, (Nat.eqb a x) eqn:Ea; simpl;
    rewrite ?Ea, ?Eb; simpl; rewrite IH; reflexivity.
Qed.

Lemma setDelete_idempotent (a : SourceId) (s : list SourceId) :
  setDelete a (setDelete a s) = setDelete a s.
Proof.
  unfold setDelete. induction s as [|x s IH]; simpl; [reflexivity|].
  destruct (Nat.eqb a x) eqn:Ea; simpl; rewrite ?Ea; simpl; rewrite IH; reflexivity.
Qed.

Lemma setDelete_nil_inv (a b : SourceId) (s : list SourceId) :
  setDelete b s = [] -> setDelete b (setDelete a s) = [].
Proof.
  intros H. rewrite setDelete_comm, H. reflexivity.
Qed.

Lemma onended_unfold (src : SourceId) (w : World) :
  onended src w
  = match setDelete src (sourcesRef w) with
    | [] => setIsSpeaking false (setSources [] w)
    | l => setSources l w
    end.
Proof.
  unfold onended. cbn [sourcesRef setSources].
  destruct (setDelete src (sourcesRef w)); reflexivity.
Qed.

(** X20.  The [ended] listeners commute and are idempotent: two sources
    ending in either order leave the same state, and a second [ended] of
    the same source changes nothing. *)
Theorem ended_events_commute (a b : SourceId) (w : World) :
  onended a (onended b w) = onended b (onended a w)
  /\ onended a (onended a w) = onended a w.
Proof.
  split.
  - rewrite (onended_unfold b w), (onended_unfold a w).
    destruct (setDelete b (sourcesRef w)) as [|x l] eqn:Eb;
      destruct (setDelete a (sourcesRef w)) as [|y k] eqn:Ea;
      rewrite !onended_unfold; cbn [sourcesRef setSources setIsSpeaking].
    + reflexivity.
    + pose proof (setDelete_nil_inv a b _ Eb) as H. rewrite Ea in H. rewrite H.
      reflexivity.
    + pose proof (setDelete_nil_inv b a _ Ea) as H. rewrite Eb in H. rewrite H.
      reflexivity.
    + pose proof (setDelete_comm a b (sourcesRef w)) as H. rewrite Ea, Eb in H.
      rewrite H. destruct (setDelete b (y :: k)); reflexivity.
  - rewrite (onended_unfold a w).
    destruct (setDelete a (sourcesRef w)) as [|x l] eqn:Ea;
      rewrite onended_unfold; cbn [sourcesRef setSources setIsSpeaking].
    + reflexivity.
    + pose proof (setDelete_idempotent a (sourcesRef w)) as H. rewrite Ea in H.
      rewrite H. reflexivity.
Qed.

(** ** One-word texts *)

Lemma allWordChars_app (a b : string) :
  allWordChars (a ++ b)%string = allWordChars a && allWordChars b.
Proof.
  induction a as [|c a IH]; simpl; [reflexivity|]. rewrite IH, andb_assoc. reflexivity.
Qed.

Lemma lastChar_word (s : string) : forall prev,
  s <> ""%string -> allWordChars s = true -> isWord (lastChar prev s) = true.
Proof.
  induction s as [|c s IH]; intros prev Hne Hw; [congruence|].
  simpl in Hw. apply andb_prop in Hw. destruct Hw as [Hc Hs].
  destruct s as [|d s'].
  - simpl. assumption.
  - change (isWord (lastChar (Some c) (String d s')) = true).
    apply IH; [discriminate | assumption].
Qed.

Lemma peek_word (s : string) :
  s <> ""%string -> allWordChars s = true -> isWord (peek s) = true.
Proof.
  destruct s as [|c s]; [congruence|]. simpl. intros _ H.
  apply andb_prop in H. tauto.
Qed.

Lemma word_of_single_word (w s : string) :
  allWordChars s = true -> w <> ""%string -> occursAsWord w s -> w = s.
Proof.
  intros Hs Hw [pre [post [E [Hb1 Hb2]]]]. subst s.
  rewrite !allWordChars_app in Hs.
  apply andb_prop in Hs. destruct Hs as [Hpre Hs].
  apply andb_prop in Hs. destruct Hs as [Hww Hpost].
  assert (pre = ""%string).
  { destruct pre as [|c pre]; [reflexivity|]. exfalso.
    unfold wordBoundary in Hb1.
    rewrite (lastChar_word (String c pre) None) in Hb1 by (discriminate || assumption).
    rewrite peek_word in Hb1; [discriminate | destruct w; [congruence | discriminate] |].
    rewrite allWordChars_app, Hww, Hpost. reflexivity. }
  subst pre. simpl in *.
  assert (post = ""%string).
  { destruct post as [|c post]; [reflexivity|]. exfalso.
    unfold wordBoundary in Hb2.
    rewrite (lastChar_word w None) in Hb2 by assumption.
    rewrite peek_word in Hb2; [discriminate | discriminate | assumption]. }
  subst post. rewrite append_nil_r. reflexivity.
Qed.

Lemma single_word_occurs (s : string) :
  allWordChars s = true -> s <> ""%string -> occursAsWord s s.
Proof.
  intros Hs Hne. exists ""%string, ""%string. rewrite append_nil_r. simpl.
  split; [reflexivity|]. unfold wordBoundary. split.
  - rewrite peek_word by assumption. reflexivity.
  - rewrite lastChar_word by assumption. reflexivity.
Qed.

Lemma test_single_word (alts : list string) (s : string) :
  allWordChars s = true -> s <> ""%string -> ~ In ""%string alts ->
  (test alts s = true <-> In s alts).
Proof.
  intros Hs Hne Hnil. rewrite test_spec. split.
  - intros [w [Hin Hw]].
    assert (w <> ""%string) by (intros ->; auto).
    rewrite <- (word_of_single_word w s); assumption.
  - intros Hin. exists s. split; [assumption|]. apply single_word_occurs; assumption.
Qed.

Lemma lowerChar_word (c : ascii) : isWordChar (lowerChar c) = isWordChar c.
Proof. destruct c as [[] [] [] [] [] [] [] []]; reflexivity. Qed.

Lemma toLowerCase_word (s : string) : allWordChars (toLowerCase s) = allWordChars s.
Proof.
  induction s as [|c s IH]; simpl; [reflexivity|]. rewrite lowerChar_word, IH. reflexivity.
Qed.

(** X21.  A text that is one word, letters, digits and underscores only,
    is given an emotion exactly when the word, lower-cased, is one of the
    keywords: a keyword inside a longer word does not count. *)
Theorem one_word_text_needs_a_keyword (text : string) :
  allWordChars text = true -> text <> ""%string ->
  (detectEmotion text <> default <-> In (toLowerCase text) allKeywords).
Proof.
  intros Hw Hne.
  assert (Hl : allWordChars (toLowerCase text) = true) by (rewrite toLowerCase_word; assumption).
  assert (Hn : toLowerCase text <> ""%string) by (destruct text; [congruence | discriminate]).
  assert (T : forall alts, incl alts allKeywords ->
                           (test alts (toLowerCase text) = true
                            <-> In (toLowerCase text) alts)).
  { intros alts Hincl. apply test_single_word; try assumption.
    intros H. apply Hincl in H. revert H. vm_compute.
    intuition discriminate. }
  assert (I : forall e ws, In (e, ws) emotionTable -> incl ws allKeywords).
  { intros e ws Hin x Hx. unfold allKeywords. apply in_flat_map. exists (e, ws). auto. }
  pose proof (T surpriseWords (I surprise _ ltac:(simpl; tauto))) as T1.
  pose proof (T frustrationWords (I frustration _ ltac:(simpl; tauto))) as T2.
  pose proof (T boredomWords (I boredom _ ltac:(simpl; tauto))) as T3.
  pose proof (T joyWords (I joy _ ltac:(simpl; tauto))) as T4.
  pose proof (T empathyWords (I empathy _ ltac:(simpl; tauto))) as T5.
  pose proof (T calmWords (I calm _ ltac:(simpl; tauto))) as T6.
  pose proof (T curiosityWords (I curiosity _ ltac:(simpl; tauto))) as T7.
  assert (K : In (toLowerCase text) allKeywords
              <-> In (toLowerCase text) surpriseWords
                  \/ In (toLowerCase text) frustrationWords
                  \/ In (toLowerCase text) boredomWords
                  \/ In (toLowerCase text) joyWords
                  \/ In (toLowerCase text) empathyWords
                  \/ In (toLowerCase text) calmWords
                  \/ In (toLowerCase text) curiosityWords).
  { unfold allKeywords, emotionTable. cbn [flat_map snd].
    rewrite !in_app_iff. simpl (In _ []). tauto. }
  rewrite K, <- T1, <- T2, <- T3, <- T4, <- T5, <- T6, <- T7.
  unfold detectEmotion.
  destruct (test surpriseWords (toLowerCase text));
    [split; [auto | discriminate]|].
  destruct (test frustrationWords (toLowerCase text));
    [split; [auto | discriminate]|].
  destruct (test boredomWords (toLowerCase text));
    [split; [auto | discriminate]|].
  destruct (test joyWords (toLowerCase text));
    [split; [auto 6 | discriminate]|].
  destruct (test empathyWords (toLowerCase text));
    [split; [auto 7 | discriminate]|].
  destruct (test calmWords (toLowerCase text));
    [split; [auto 8 | discriminate]|].
  destruct (test curiosityWords (toLowerCase text));
    [split; [auto 9 | discriminate]|].
  split; [congruence|]. intros H. exfalso. intuition discriminate.
Qed.

Lemma one_word_text_needs_a_keyword_witness :
  detectEmotion "Unhappy" <> default <-> In (toLowerCase "Unhappy") allKeywords.
Proof.
  apply (one_word_text_needs_a_keyword "Unhappy"); [reflexivity | discriminate].
Defined.

(** ** Colours *)

(** X22.  Every emotion has its own look: the colour of the status bars,
    and each of the glow, the halo and the pulse speed of the avatar, tell
    the eight emotions apart.  The wave bars of the avatar use the colour
    of the status bars except for [surprise] and [boredom], where the
    shade differs. *)
Theorem emotion_colours_are_distinct :
  (forall a b, statusBarColour a = statusBarColour b -> a = b)
  /\ (forall a b, waveBarColour a = waveBarColour b -> a = b)
  /\ (forall a b, glow (emotionConfig a) = glow (emotionConfig b) -> a = b)
  /\ (forall a b, halo (emotionConfig a) = halo (emotionConfig b) -> a = b)
  /\ (forall a b, pulseSpeed (emotionConfig a) = pulseSpeed (emotionConfig b) -> a = b)
  /\ (forall e, waveBarColour e = statusBarColour e <-> e <> surprise /\ e <> boredom).
Proof.
  repeat split; try (intros a b H; destruct a, b; try reflexivity; discriminate H).
  - destruct e; discriminate.
  - destruct e; discriminate.
  - intros [H1 H2]. destruct e; try reflexivity; congruence.
Qed.

Lemma emotion_colours_are_distinct_witness :
  joy = joy /\ (waveBarColour calm = statusBarColour calm).
Proof.
  destruct emotion_colours_are_distinct as [H [_ [_ [_ [_ H']]]]]. split.
  - apply H. reflexivity.
  - apply H'. split; discriminate.
Defined.

(** ** Instances *)

Lemma bufferBytes_layout_witness :
  exists lo hi,
    nth_error (bufferBytes [5; -2; 300]) (2 * 1) = Some lo
    /\ nth_error (bufferBytes [5; -2; 300]) (2 * 1 + 1) = Some hi
    /\ lo + 256 * hi = -2 mod 65536.
Proof.
  destruct (bufferBytes_layout [5; -2; 300]) as [_ [_ H]].
  apply (H 1%nat (-2)). reflexivity.
Defined.

Lemma sources_are_tracked_witness :
  (exists e,
     In e (started (run [MessageArrived firstSession (audioFragment "AAAA") 0 0;
                         AudioDecoded (audioFragment "AAAA") (mkBuffer 2400 24000)]
                        initialWorld))
     /\ source e = 0%nat)
  /\ ~ In 0%nat
        (stopped (run [MessageArrived firstSession (audioFragment "AAAA") 0 0;
                       AudioDecoded (audioFragment "AAAA") (mkBuffer 2400 24000)]
                      initialWorld)).
Proof.
  destruct (sources_are_tracked
              [MessageArrived firstSession (audioFragment "AAAA") 0 0;
               AudioDecoded (audioFragment "AAAA") (mkBuffer 2400 24000)])
    as [_ [_ H]].
  apply H. simpl. auto.
Defined.
